(** * EZLang: the lexer, parser and tree-walking interpreter of [script.js]

    The program under study is the Python source that [script.js] hands to
    the Python runtime: [lex], [class Parser], [class Interpreter] and
    [run_ezlang].  This file embeds those four pieces as Rocq functions and
    proves properties of them.

    Conventions of the embedding.
    - Text is a [string]: a sequence of characters with code points 0..255.
      On that range the class [\d] of the regular expression engine is
      exactly the ten ASCII digits.
    - Python integers are unbounded: they are [Z].
    - A Python exception is a value of [exn] (class and message); a function
      that may raise returns [Res].
    - The parser is recursive; its embedding takes a fuel argument, and
      [Fuel] is the result of a run that was given too little.  The entry
      point supplies enough ([parse_total]) and more changes nothing
      ([parse_fuel_irrelevant]).
    - The limits of the host are outside the model: the depth of recursion,
      memory, the cap of 4300 digits on a conversion between int and str
      (beyond it [int] and [str] raise a ValueError) and the size of an
      index (a str times an int that does not fit one raises an
      OverflowError).  Where the embedding returns a result, the host
      returns it below these limits; a theorem that states a result of
      such a conversion or repetition carries the limit as a hypothesis
      ([max_str_digits], [fits_index]). *)

From Stdlib Require Import ZArith String Ascii List Lia Bool DecimalString.
From Stdlib Require Import QArith Qround.
From Stdlib Require DecimalPos.
From stdpp Require Import gmap strings list.

Local Open Scope Z_scope.
Local Open Scope stdpp_scope.

(* ===================================================================== *)
(** * Characters and text *)
(* ===================================================================== *)

Module Text.

(** The double quote character and the line feed. *)
Definition dquote : ascii := ascii_of_nat 34.
Definition squote : ascii := ascii_of_nat 39.
Definition backslash : ascii := ascii_of_nat 92.
Definition LF : ascii := ascii_of_nat 10.
Definition TAB : ascii := ascii_of_nat 9.
Definition CR : ascii := ascii_of_nat 13.

Definition str1 (c : ascii) : string := String c EmptyString.

(** [quoted s] is [s] between two double quotes, as typed in a program. *)
Definition quoted (s : string) : string :=
  String dquote (s +:+ str1 dquote).

Definition code_of (c : ascii) : nat := nat_of_ascii c.

Definition between (lo hi : nat) (c : ascii) : bool :=
  (lo <=? code_of c)%nat && (code_of c <=? hi)%nat.

(** [\d] *)
Definition is_digit (c : ascii) : bool := between 48 57 c.
(** [[a-zA-Z_]] *)
Definition is_ident_char (c : ascii) : bool :=
  between 97 122 c || between 65 90 c || Ascii.eqb c "_".
(** [[ \t\n]] *)
Definition is_space (c : ascii) : bool :=
  Ascii.eqb c " " || Ascii.eqb c TAB || Ascii.eqb c LF.
(** Any character but the double quote. *)
Definition not_dquote (c : ascii) : bool := negb (Ascii.eqb c dquote).

(** [s[n:]] *)
Fixpoint drop (n : nat) (s : string) : string :=
  match n, s with
  | S n', String _ r => drop n' r
  | _, _ => s
  end.

(** [s[:n]] *)
Fixpoint take (n : nat) (s : string) : string :=
  match n, s with
  | S n', String c r => String c (take n' r)
  | _, _ => EmptyString
  end.

(** [s.startswith(p)] *)
Fixpoint startswith (p s : string) : bool :=
  match p, s with
  | EmptyString, _ => true
  | String a p', String b s' => Ascii.eqb a b && startswith p' s'
  | String _ _, EmptyString => false
  end.

(** [c in s] for a single character *)
Fixpoint mem (c : ascii) (s : string) : bool :=
  match s with
  | EmptyString => false
  | String a r => Ascii.eqb a c || mem c r
  end.

(** [sep.join(l)] *)
Fixpoint join (sep : string) (l : list string) : string :=
  match l with
  | [] => EmptyString
  | [x] => x
  | x :: r => x +:+ sep +:+ join sep r
  end.

(** [s * n] for a natural count *)
Fixpoint repeat (s : string) (n : nat) : string :=
  match n with
  | O => EmptyString
  | S k => s +:+ repeat s k
  end.

(** [int(s)] on a run of ASCII digits (leading zeros allowed).  This is the
    value the host returns for a run of at most 4300 digits; for a longer
    run the host raises a ValueError, which the embedding leaves out. *)
Definition digit_val (c : ascii) : Z := Z.of_nat (code_of c) - 48.
Fixpoint int_acc (acc : Z) (s : string) : Z :=
  match s with
  | EmptyString => acc
  | String c r => int_acc (10 * acc + digit_val c) r
  end.
Definition int (s : string) : Z := int_acc 0 s.

(** [str(n)] for an integer: decimal digits, a leading minus sign when
    negative.  This is the text the host returns for an integer of at most
    4300 digits; for more digits the host raises a ValueError, which the
    embedding leaves out. *)
Definition str_int (n : Z) : string := NilZero.string_of_int (Z.to_int n).

End Text.

(* ===================================================================== *)
(** * Lexer *)
(* ===================================================================== *)

(** The names of the groups of [token_specs]. *)
Inductive kind :=
| K_NUMBER | K_STRING | K_PRINT | K_IF | K_LBRACE | K_RBRACE | K_ASSIGN
| K_OP | K_COMPARE | K_LPAREN | K_RPAREN | K_IDENTIFIER | K_SKIP.

Definition kind_name (k : kind) : string :=
  match k with
  | K_NUMBER => "NUMBER" | K_STRING => "STRING" | K_PRINT => "PRINT"
  | K_IF => "IF" | K_LBRACE => "LBRACE" | K_RBRACE => "RBRACE"
  | K_ASSIGN => "ASSIGN" | K_OP => "OP" | K_COMPARE => "COMPARE"
  | K_LPAREN => "LPAREN" | K_RPAREN => "RPAREN"
  | K_IDENTIFIER => "IDENTIFIER" | K_SKIP => "SKIP"
  end.

Definition kind_eqb (a b : kind) : bool :=
  match a, b with
  | K_NUMBER, K_NUMBER | K_STRING, K_STRING | K_PRINT, K_PRINT
  | K_IF, K_IF | K_LBRACE, K_LBRACE | K_RBRACE, K_RBRACE
  | K_ASSIGN, K_ASSIGN | K_OP, K_OP | K_COMPARE, K_COMPARE
  | K_LPAREN, K_LPAREN | K_RPAREN, K_RPAREN
  | K_IDENTIFIER, K_IDENTIFIER | K_SKIP, K_SKIP => true
  | _, _ => false
  end.

(** The nine binary operators of the language. *)
Inductive binop := Add | Sub | Mul | Div | Lt | Gt | Le | Ge | Eq.

Definition binop_text (o : binop) : string :=
  match o with
  | Add => "+" | Sub => "-" | Mul => "*" | Div => "/"
  | Lt => "<" | Gt => ">" | Le => "<=" | Ge => ">=" | Eq => "=="
  end.

Definition binop_of_text (s : string) : option binop :=
  if String.eqb s "+" then Some Add
  else if String.eqb s "-" then Some Sub
  else if String.eqb s "*" then Some Mul
  else if String.eqb s "/" then Some Div
  else if String.eqb s "<" then Some Lt
  else if String.eqb s ">" then Some Gt
  else if String.eqb s "<=" then Some Le
  else if String.eqb s ">=" then Some Ge
  else if String.eqb s "==" then Some Eq
  else None.

(** A token is the pair [(kind, value)] that [lex] appends.  The value of a
    NUMBER is an int, of a STRING the text between the quotes, of an
    IDENTIFIER its spelling, of an OP or COMPARE the operator matched; every
    other kind has one spelling. *)
Inductive token :=
| NUMBER (n : Z)
| STRING (s : string)
| PRINT | IF | LBRACE | RBRACE | ASSIGN
| OP (o : binop)
| COMPARE (o : binop)
| LPAREN | RPAREN
| IDENTIFIER (x : string).

Definition tok_kind (t : token) : kind :=
  match t with
  | NUMBER _ => K_NUMBER | STRING _ => K_STRING | PRINT => K_PRINT
  | IF => K_IF | LBRACE => K_LBRACE | RBRACE => K_RBRACE
  | ASSIGN => K_ASSIGN | OP _ => K_OP | COMPARE _ => K_COMPARE
  | LPAREN => K_LPAREN | RPAREN => K_RPAREN | IDENTIFIER _ => K_IDENTIFIER
  end.

Module Regex.
Import Text.

(** Length of the longest prefix of [s] whose characters satisfy [p]. *)
Fixpoint span (p : ascii -> bool) (s : string) : nat :=
  match s with
  | String c r => if p c then S (span p r) else O
  | EmptyString => O
  end.

(** [[p]+]: greedy, at least one character. *)
Definition plus (p : ascii -> bool) (s : string) : option nat :=
  match span p s with
  | O => None
  | n => Some n
  end.

(** A literal. *)
Definition lit (w : string) (s : string) : option nat :=
  if startswith w s then Some (String.length w) else None.

(** A double quote, then any characters but the double quote, then a
    double quote. *)
Definition string_lit (s : string) : option nat :=
  match s with
  | String c r =>
      if Ascii.eqb c dquote then
        let n := span not_dquote r in
        match drop n r with
        | String _ _ => Some (S (S n))
        | EmptyString => None
        end
      else None
  | EmptyString => None
  end.

(** [[+\-*/]] *)
Definition arith (s : string) : option nat :=
  match s with
  | String c _ => if mem c "+-*/" then Some 1%nat else None
  | EmptyString => None
  end.

(** [[<>]=?|==] *)
Definition compare (s : string) : option nat :=
  match s with
  | String c r =>
      if mem c "<>" then
        if startswith "=" r then Some 2%nat else Some 1%nat
      else lit "==" s
  | EmptyString => None
  end.

(** [token_specs], in the order of the source: the alternation built by
    the join tries them left to right and the first that matches wins. *)
Definition token_specs : list (kind * (string -> option nat)) :=
  [ (K_NUMBER, plus is_digit);
    (K_STRING, string_lit);
    (K_PRINT, lit "print");
    (K_IF, lit "if");
    (K_LBRACE, lit "{");
    (K_RBRACE, lit "}");
    (K_ASSIGN, lit "=");
    (K_OP, arith);
    (K_COMPARE, compare);
    (K_LPAREN, lit "(");
    (K_RPAREN, lit ")");
    (K_IDENTIFIER, plus is_ident_char);
    (K_SKIP, plus is_space) ].

Fixpoint first_match (specs : list (kind * (string -> option nat)))
         (s : string) : option (kind * nat) :=
  match specs with
  | [] => None
  | (k, re) :: rest =>
      match re s with
      | Some n => Some (k, n)
      | None => first_match rest s
      end
  end.

(** The match of [token_regex] anchored at the head of [s]: the group
    that matched and the length of the match. *)
Definition match_at (s : string) : option (kind * nat) :=
  first_match token_specs s.

(** A match object: where it starts, [lastgroup] and [group()]. *)
Record rmatch := { m_start : nat; lastgroup : kind; group : string }.

Definition m_end (m : rmatch) : nat :=
  (m_start m + String.length (group m))%nat.

(** [scan skip pos s]: the matches found in the text [s], which begins at
    offset [pos] of the whole text, once the next [skip] characters (the
    tail of the previous match) have been passed over.  Where nothing
    matches, the search moves on by one character. *)
Fixpoint scan (skip pos : nat) (s : string) : list rmatch :=
  match s with
  | EmptyString => []
  | String _ r =>
      match skip with
      | S k => scan k (S pos) r
      | O =>
          match match_at s with
          | Some (k, n) =>
              {| m_start := pos; lastgroup := k; group := take n s |}
                :: scan (Nat.pred n) (S pos) r
          | None => scan O (S pos) r
          end
      end
  end.

(** [re.finditer(token_regex, code)] *)
Definition finditer (code : string) : list rmatch := scan O O code.

End Regex.

(** The body of the [for] loop of [lex]: the token appended for a match, or
    nothing for SKIP. *)
Definition lex_match (m : Regex.rmatch) : option token :=
  let value := Regex.group m in
  match Regex.lastgroup m with
  | K_NUMBER => Some (NUMBER (Text.int value))
  | K_STRING =>
      Some (STRING (Text.take (String.length value - 2) (Text.drop 1 value)))
  | K_SKIP => None
  | K_PRINT => Some PRINT
  | K_IF => Some IF
  | K_LBRACE => Some LBRACE
  | K_RBRACE => Some RBRACE
  | K_ASSIGN => Some ASSIGN
  | K_OP => OP <$> binop_of_text value
  | K_COMPARE => COMPARE <$> binop_of_text value
  | K_LPAREN => Some LPAREN
  | K_RPAREN => Some RPAREN
  | K_IDENTIFIER => Some (IDENTIFIER value)
  end.

Definition lex (code : string) : list token :=
  omap lex_match (Regex.finditer code).

(* ===================================================================== *)
(** * Exceptions and results *)
(* ===================================================================== *)

(** The classes of exception the program raises below the limits of the
    host.  All derive from [Exception], as do the ValueError, OverflowError
    and RecursionError the host raises at its limits, which the embedding
    leaves out. *)
Inductive exn_class := SyntaxError | IndexError | TypeError | ZeroDivisionError.

(** An exception: its class and [str(e)]. *)
Record exn := Exn { exn_class_of : exn_class; exn_str : string }.

(** The outcome of a call: a value, an exception, or [Fuel] when the
    embedding was given too little fuel (not an outcome of the program). *)
Inductive Res (A : Type) :=
| OK (a : A)
| Raise (e : exn)
| Fuel.
Arguments OK {A} a.
Arguments Raise {A} e.
Arguments Fuel {A}.

#[global] Instance Res_ret : MRet Res := fun A a => OK a.
#[global] Instance Res_fmap : FMap Res := fun A B f m =>
  match m with
  | OK a => OK (f a)
  | Raise e => Raise e
  | Fuel => Fuel
  end.
#[global] Instance Res_bind : MBind Res := fun A B f m =>
  match m with
  | OK a => f a
  | Raise e => Raise e
  | Fuel => Fuel
  end.

(* ===================================================================== *)
(** * Python values and operators *)
(* ===================================================================== *)

(** The objects an expression evaluates to: int, str and bool. *)
Inductive value :=
| VInt (n : Z)
| VStr (s : string)
| VBool (b : bool).

Module Py.
Import Text.

Definition type_name (v : value) : string :=
  match v with
  | VInt _ => "int"
  | VStr _ => "str"
  | VBool _ => "bool"
  end.

(** bool is a subclass of int: [True] counts as 1 and [False] as 0. *)
Definition as_int (v : value) : option Z :=
  match v with
  | VInt n => Some n
  | VBool b => Some (if b then 1 else 0)
  | VStr _ => None
  end.

Definition sq (s : string) : string := String squote (s +:+ str1 squote).
Definition dq (s : string) : string := String dquote (s +:+ str1 dquote).

Definition type_error (msg : string) : exn := Exn TypeError msg.

Definition unsupported (sym : string) (l r : value) : exn :=
  type_error ("unsupported operand type(s) for " +:+ sym +:+ ": "
              +:+ sq (type_name l) +:+ " and " +:+ sq (type_name r)).

(** [l + r] *)
Definition add (l r : value) : Res value :=
  match as_int l, as_int r with
  | Some a, Some b => OK (VInt (a + b))
  | _, _ =>
      match l, r with
      | VStr a, VStr b => OK (VStr (a +:+ b))
      | VStr _, _ =>
          Raise (type_error ("can only concatenate str (not "
                             +:+ dq (type_name r) +:+ ") to str"))
      | _, _ => Raise (unsupported "+" l r)
      end
  end.

(** [l - r] *)
Definition sub (l r : value) : Res value :=
  match as_int l, as_int r with
  | Some a, Some b => OK (VInt (a - b))
  | _, _ => Raise (unsupported "-" l r)
  end.

(** [l * r]: a str times an int is the str repeated, empty when the count
    is not positive.  This is what the host returns when the count and the
    length of the result fit an index; otherwise the host raises an
    OverflowError, which the embedding leaves out. *)
Definition mul (l r : value) : Res value :=
  match l, r with
  | VStr s, VStr _ =>
      Raise (type_error ("can't multiply sequence by non-int of type "
                         +:+ sq (type_name r)))
  | VStr s, _ =>
      match as_int r with
      | Some n => OK (VStr (repeat s (Z.to_nat n)))
      | None => Raise (unsupported "*" l r)
      end
  | _, VStr s =>
      match as_int l with
      | Some n => OK (VStr (repeat s (Z.to_nat n)))
      | None => Raise (unsupported "*" l r)
      end
  | _, _ =>
      match as_int l, as_int r with
      | Some a, Some b => OK (VInt (a * b))
      | _, _ => Raise (unsupported "*" l r)
      end
  end.

(** [l // r]: [Z.div] rounds toward minus infinity, as [//] does. *)
Definition floordiv (l r : value) : Res value :=
  match as_int l, as_int r with
  | Some a, Some b =>
      if Z.eqb b 0
      then Raise (Exn ZeroDivisionError "integer division or modulo by zero")
      else OK (VInt (a / b))
  | _, _ => Raise (unsupported "//" l r)
  end.

(** [l == r]: objects of unrelated types are unequal. *)
Definition eq (l r : value) : bool :=
  match as_int l, as_int r with
  | Some a, Some b => Z.eqb a b
  | _, _ =>
      match l, r with
      | VStr a, VStr b => String.eqb a b
      | _, _ => false
      end
  end.

(** The ordering comparisons [< > <= >=]: numbers by value, strings
    lexicographically by code point, anything else is a TypeError. *)
Definition order (sym : string) (fz : Z -> Z -> bool)
           (fs : string -> string -> bool) (l r : value) : Res value :=
  match as_int l, as_int r with
  | Some a, Some b => OK (VBool (fz a b))
  | _, _ =>
      match l, r with
      | VStr a, VStr b => OK (VBool (fs a b))
      | _, _ =>
          Raise (type_error (sq sym +:+ " not supported between instances of "
                             +:+ sq (type_name l) +:+ " and "
                             +:+ sq (type_name r)))
      end
  end.

Definition lt := order "<" Z.ltb String.ltb.
Definition gt := order ">" Z.gtb (fun a b => String.ltb b a).
Definition le := order "<=" Z.leb String.leb.
Definition ge := order ">=" Z.geb (fun a b => String.leb b a).

(** [str(v)] *)
Definition str (v : value) : string :=
  match v with
  | VInt n => str_int n
  | VStr s => s
  | VBool true => "True"
  | VBool false => "False"
  end.

(** The truth value of [v] in [if v:]. *)
Definition truthy (v : value) : bool :=
  match v with
  | VInt n => negb (Z.eqb n 0)
  | VStr s => negb (String.eqb s EmptyString)
  | VBool b => b
  end.

(** [repr(s)] for a str.  Printable characters are the ASCII ones from
    space to tilde and, above them, all but U+0080..U+00A0 and U+00AD. *)
Definition printable (c : ascii) : bool :=
  between 32 126 c || (between 161 255 c && negb (Nat.eqb (code_of c) 173)).

Definition hex_digit (n : nat) : ascii :=
  match String.get n "0123456789abcdef" with
  | Some c => c
  | None => "0"%char
  end.

Definition escape (q c : ascii) : string :=
  if Ascii.eqb c q || Ascii.eqb c backslash then String backslash (str1 c)
  else if Ascii.eqb c TAB then "\t"
  else if Ascii.eqb c LF then "\n"
  else if Ascii.eqb c CR then "\r"
  else if printable c then str1 c
  else "\x" +:+ String (hex_digit (code_of c / 16)) (str1 (hex_digit (code_of c mod 16))).

Fixpoint escape_all (q : ascii) (s : string) : string :=
  match s with
  | EmptyString => EmptyString
  | String c r => escape q c +:+ escape_all q r
  end.

Definition repr_str (s : string) : string :=
  let q := if mem squote s && negb (mem dquote s) then dquote else squote in
  String q (escape_all q s +:+ str1 q).

End Py.

(* ===================================================================== *)
(** * Abstract syntax *)
(* ===================================================================== *)

(** An expression node: an int, a str, [('var', name)] or
    [(op, left, right)]. *)
Inductive expr :=
| IntLiteral (n : Z)
| StringLiteral (s : string)
| VarRef (name : string)
| BinaryOp (op : binop) (l r : expr).

(** A statement node: [('print', expr)], [('if', condition, body)] or
    [('assign', var_name, expr)]. *)
#[warnings="-register-all"]
Inductive stmt :=
| Print (e : expr)
| If (condition : expr) (body : list stmt)
| Assign (var_name : string) (e : expr).

(* ===================================================================== *)
(** * Parser *)
(* ===================================================================== *)

(** The second component of a token, as text (for a NUMBER see
    [repr_token]). *)
Definition tok_text (t : token) : string :=
  match t with
  | NUMBER n => Text.str_int n
  | STRING s => s
  | PRINT => "print" | IF => "if" | LBRACE => "{" | RBRACE => "}"
  | ASSIGN => "="
  | OP o | COMPARE o => binop_text o
  | LPAREN => "(" | RPAREN => ")"
  | IDENTIFIER x => x
  end.

(** [repr(t)] of the tuple [t = (kind, value)], as an f-string renders it. *)
Definition repr_token (t : token) : string :=
  "(" +:+ Py.sq (kind_name (tok_kind t)) +:+ ", "
  +:+ match t with
      | NUMBER n => Text.str_int n
      | _ => Py.repr_str (tok_text t)
      end
  +:+ ")".

Module Parser.

(** The fields of a [Parser] object. *)
Record t := { tokens : list token; pos : nat }.

(** A method of [Parser]: it reads [self], may move [pos], and returns or
    raises. *)
Definition M (A : Type) : Type := t -> Res (A * t).

Definition ret {A} (a : A) : M A := fun self => OK (a, self).
Definition bind {A B} (m : M A) (f : A -> M B) : M B := fun self =>
  match m self with
  | OK (a, self') => f a self'
  | Raise e => Raise e
  | Fuel => Fuel
  end.
Definition raise {A} (e : exn) : M A := fun _ => Raise e.
Definition out_of_fuel {A} : M A := fun _ => Fuel.

Notation "'let*' x ':=' m 'in' k" := (bind m (fun x => k))
  (at level 10, x name, m at level 100, k at level 200, only parsing).
Notation "'do' m 'in' k" := (bind m (fun _ => k))
  (at level 10, m at level 100, k at level 200, only parsing).

Definition IndexError_list : exn := Exn IndexError "list index out of range".

(** [self.tokens[i]] *)
Definition token_at (i : nat) : M token := fun self =>
  match tokens self !! i with
  | Some tk => OK (tk, self)
  | None => Raise IndexError_list
  end.

(** [self.pos += 1] *)
Definition advance (self : t) : t :=
  {| tokens := tokens self; pos := S (pos self) |}.

Definition peek (k : kind) (self : t) : bool :=
  match tokens self !! pos self with
  | Some tk => kind_eqb (tok_kind tk) k
  | None => false
  end.

Definition peek_next (k : kind) (self : t) : bool :=
  match tokens self !! (pos self + 1)%nat with
  | Some tk => kind_eqb (tok_kind tk) k
  | None => false
  end.

Definition current : M token := fun self => token_at (pos self) self.

Definition consume (k : kind) : M token := fun self =>
  if peek k self then
    (let* tk := current in fun self => OK (tk, advance self)) self
  else
    (let* tk := current in
     raise (Exn SyntaxError ("Expected " +:+ kind_name k +:+ ", got "
                             +:+ kind_name (tok_kind tk)))) self.

(** [self.consume('IDENTIFIER')[1]]: the spelling of the identifier. *)
Definition consume_identifier : M string := fun self =>
  match tokens self !! pos self with
  | Some (IDENTIFIER x) => OK (x, advance self)
  | Some tk =>
      Raise (Exn SyntaxError ("Expected IDENTIFIER, got "
                              +:+ kind_name (tok_kind tk)))
  | None => Raise IndexError_list
  end.

(** [raise SyntaxError(prefix + repr(self.tokens[self.pos]))]: the token is
    read first, so past the end this is an IndexError. *)
Definition syntax_error_at {A} (prefix : string) : M A :=
  let* tk := current in raise (Exn SyntaxError (prefix +:+ repr_token tk)).

(** [x in s] for the spelling of an operator: substring test. *)
Fixpoint contains (hay needle : string) : bool :=
  Text.startswith needle hay
  || match hay with
     | EmptyString => false
     | String _ r => contains r needle
     end.

Section Expressions.
(** [parse_expr], for the expression between parentheses. *)
Variable parse_expr : M expr.

(** The four branches test the kind of the current token and the taken
    one consumes it; the value of the token is the node. *)
Definition parse_primary : M expr := fun self =>
  match tokens self !! pos self with
  | Some (NUMBER n) => OK (IntLiteral n, advance self)
  | Some (STRING s) => OK (StringLiteral s, advance self)
  | Some (IDENTIFIER x) => OK (VarRef x, advance self)
  | Some LPAREN =>
      (do consume K_LPAREN in
       let* node := parse_expr in
       do consume K_RPAREN in
       ret node) self
  | _ => syntax_error_at "Unexpected token: " self
  end.

(** One [while] loop of [parse_mul_div] or [parse_add_sub]: [ops] is the
    string the operator is looked up in, [operand] parses the right
    operand, [n] bounds the number of iterations. *)
Fixpoint binary_loop (ops : string) (operand : M expr) (n : nat)
         (node : expr) : M expr := fun self =>
  match tokens self !! pos self with
  | Some (OP o) =>
      if contains ops (binop_text o) then
        match n with
        | O => Fuel
        | S n' =>
            (let* rhs := operand in
             binary_loop ops operand n' (BinaryOp o node rhs))
              (advance self)
        end
      else OK (node, self)
  | _ => OK (node, self)
  end.

Definition parse_mul_div (n : nat) : M expr :=
  let* node := parse_primary in binary_loop "*/" parse_primary n node.

Definition parse_add_sub (n : nat) : M expr :=
  let* node := parse_mul_div n in binary_loop "+-" (parse_mul_div n) n node.

Definition parse_compare (n : nat) : M expr :=
  let* l := parse_add_sub n in
  fun self =>
    match tokens self !! pos self with
    | Some (COMPARE op) =>
        (let* r := parse_add_sub n in ret (BinaryOp op l r))
          (advance self)
    | _ => OK (l, self)
    end.
End Expressions.

Fixpoint parse_expr (fuel : nat) : M expr :=
  match fuel with
  | O => out_of_fuel
  | S f => parse_compare (parse_expr f) f
  end.

Section Statements.
Variable fuel : nat.
(** [parse_stmt], for the statements of an [if] body. *)
Variable parse_stmt : M stmt.

Definition parse_print : M stmt :=
  do consume K_PRINT in
  let* e := parse_expr fuel in
  ret (Print e).

(** The [while] loop of [parse_if]. *)
Fixpoint if_body (n : nat) (body : list stmt) : M (list stmt) := fun self =>
  if peek K_RBRACE self then OK (body, self)
  else
    match n with
    | O => Fuel
    | S n' => (let* s := parse_stmt in if_body n' (body ++ [s])) self
    end.

Definition parse_if : M stmt :=
  do consume K_IF in
  let* condition := parse_expr fuel in
  do consume K_LBRACE in
  let* body := if_body fuel [] in
  do consume K_RBRACE in
  ret (If condition body).

Definition parse_assignment : M stmt :=
  let* var_name := consume_identifier in
  do consume K_ASSIGN in
  let* e := parse_expr fuel in
  ret (Assign var_name e).

Definition parse_stmt_body : M stmt := fun self =>
  if peek K_PRINT self then parse_print self
  else if peek K_IF self then parse_if self
  else if peek K_IDENTIFIER self && peek_next K_ASSIGN self
       then parse_assignment self
  else syntax_error_at "Invalid statement at token " self.
End Statements.

Fixpoint parse_stmt (fuel : nat) : M stmt :=
  match fuel with
  | O => out_of_fuel
  | S f => parse_stmt_body f (parse_stmt f)
  end.

(** The [while] loop of [parse]. *)
Fixpoint parse_loop (fuel n : nat) (stmts : list stmt) : M (list stmt) :=
  fun self =>
    if (pos self <? length (tokens self))%nat then
      match n with
      | O => Fuel
      | S n' =>
          (let* s := parse_stmt fuel in parse_loop fuel n' (stmts ++ [s])) self
      end
    else OK (stmts, self).

Definition parse_with (fuel : nat) : M (list stmt) :=
  parse_loop fuel fuel [].

(** [Parser(tokens)] *)
Definition init (toks : list token) : t := {| tokens := toks; pos := 0 |}.

(** [Parser(tokens).parse()], with fuel enough for any token list. *)
Definition parse (toks : list token) : Res (list stmt) :=
  fst <$> parse_with (S (length toks)) (init toks).

End Parser.

(* ===================================================================== *)
(** * Interpreter *)
(* ===================================================================== *)

Module Interpreter.

(** The fields of an [Interpreter] object: the dict [vars] and the list
    [output]. *)
Record t := { vars : gmap string value; output : list string }.

(** [Interpreter()] *)
Definition init : t := {| vars := ∅; output := [] |}.

(** [self.vars.get(var_name, 0)] *)
Definition vars_get (self : t) (var_name : string) : value :=
  default (VInt 0) (vars self !! var_name).

(** The operator applied to the values of the two operands. *)
Definition apply (op : binop) (left_val right_val : value) : Res value :=
  match op with
  | Add => Py.add left_val right_val
  | Sub => Py.sub left_val right_val
  | Mul => Py.mul left_val right_val
  | Div => Py.floordiv left_val right_val
  | Gt => Py.gt left_val right_val
  | Lt => Py.lt left_val right_val
  | Eq => OK (VBool (Py.eq left_val right_val))
  | Ge => Py.ge left_val right_val
  | Le => Py.le left_val right_val
  end.

(** [eval_expr] reads [self.vars] and changes nothing. *)
Fixpoint eval_expr (self : t) (e : expr) : Res value :=
  match e with
  | IntLiteral n => OK (VInt n)
  | StringLiteral s => OK (VStr s)
  | VarRef var_name => OK (vars_get self var_name)
  | BinaryOp op l r =>
      left_val ← eval_expr self l;
      right_val ← eval_expr self r;
      apply op left_val right_val
  end.

Definition append_output (self : t) (line : string) : t :=
  {| vars := vars self; output := output self ++ [line] |}.

Definition set_var (self : t) (var_name : string) (v : value) : t :=
  {| vars := <[var_name := v]> (vars self); output := output self |}.

(** [eval_stmt] returns the object as the statement leaves it. *)
Fixpoint eval_stmt (s : stmt) (self : t) : Res t :=
  match s with
  | Print e =>
      v ← eval_expr self e;
      OK (append_output self (Py.str v))
  | If condition body =>
      c ← eval_expr self condition;
      if Py.truthy c then
        (fix each (body : list stmt) (self : t) : Res t :=
           match body with
           | [] => OK self
           | body_stmt :: rest =>
               self' ← eval_stmt body_stmt self;
               each rest self'
           end) body self
      else OK self
  | Assign var_name e =>
      v ← eval_expr self e;
      OK (set_var self var_name v)
  end.

(** A [for] loop over statements. *)
Fixpoint eval_stmts (l : list stmt) (self : t) : Res t :=
  match l with
  | [] => OK self
  | s :: rest =>
      self' ← eval_stmt s self;
      eval_stmts rest self'
  end.

(** [self.run(ast)]: the returned string and the object afterwards. *)
Definition run (ast : list stmt) (self : t) : Res (string * t) :=
  let self := {| vars := vars self; output := [] |} in
  self' ← eval_stmts ast self;
  OK (Text.join (Text.str1 Text.LF) (output self'), self').

End Interpreter.

(* ===================================================================== *)
(** * Runner *)
(* ===================================================================== *)

(** The body of the [try] block of [run_ezlang], given the interpreter
    object to use. *)
Definition pipeline_on (it : Interpreter.t) (code : string)
  : Res (string * Interpreter.t) :=
  let tokens := lex code in
  ast ← Parser.parse tokens;
  Interpreter.run ast it.

(** The body of the [try] block: the interpreter is a new object. *)
Definition pipeline (code : string) : Res string :=
  fst <$> pipeline_on Interpreter.init code.

(** [run_ezlang(code)].  [None] stands for a run of the embedding that
    lacked fuel; [run_ezlang_returns] shows there is none. *)
Definition run_ezlang (code : string) : option string :=
  match pipeline code with
  | OK out => Some out
  | Raise e => Some ("Error: " +:+ exn_str e)
  | Fuel => None
  end.

Definition nl : string := Text.str1 Text.LF.

(* ===================================================================== *)
(** * Notions used to state the properties *)
(* ===================================================================== *)

Section Notions.
Import Text Regex Parser Interpreter.

(** What [match_at] returns is the result of one of the thirteen
    patterns, all earlier ones having failed. *)
Inductive tried : list (kind * (string -> option nat)) -> string ->
                  kind -> nat -> Prop :=
| tried_here k re rest s n :
    re s = Some n -> tried ((k, re) :: rest) s k n
| tried_later k0 re rest s k n :
    re s = None -> tried rest s k n -> tried ((k0, re) :: rest) s k n.

(** The tokens the loop of [lex] appends for a list of matches. *)
Definition tokens_of (ms : list rmatch) : list token := omap lex_match ms.

(** [i] lies inside the span of [m]. *)
Definition inside (i : nat) (m : rmatch) : Prop :=
  (m_start m <= i < m_end m)%nat.

(** No match of the scan covers position [i] of [code]. *)
Definition unmatched (code : string) (i : nat) : Prop :=
  (i < String.length code)%nat
  /\ Forall (fun m => ~ inside i m) (Regex.finditer code).

Definition first_unmatched (code : string) (i : nat) : Prop :=
  unmatched code i /\ forall j, (j < i)%nat -> ~ unmatched code j.

(** [one_line s]: the text holds no line feed. *)
Definition one_line (s : string) : Prop := Text.mem Text.LF s = false.

(** The number of tokens not yet consumed. *)
Definition rem (self : Parser.t) : nat := (length (tokens self) - pos self)%nat.

(** What a call of a parser method may do: return having consumed
    something ([strict]) or possibly nothing, or raise with a one-line
    message; never run out of fuel. *)
Definition ok {A} (strict : bool) (self : Parser.t) (r : Res (A * Parser.t))
  : Prop :=
  match r with
  | OK (_, self') =>
      tokens self' = tokens self
      /\ if strict then (rem self' < rem self)%nat
         else (rem self' <= rem self)%nat
  | Raise e => one_line (exn_str e)
  | Fuel => False
  end.

(** [below r r']: [r] ran out of fuel, or is the same outcome as [r']. *)
Definition below {A} (r r' : Res A) : Prop := r = Fuel \/ r = r'.

Definition below_M {A} (m m' : M A) : Prop :=
  forall self, below (m self) (m' self).

(** Induction on statements that reaches into the bodies of [If]. *)
Section StmtInd.
Variable P : stmt -> Prop.
Hypothesis HPrint : forall e, P (Print e).
Hypothesis HIf : forall c body, Forall P body -> P (If c body).
Hypothesis HAssign : forall x e, P (Assign x e).

Fixpoint stmt_ind_nested (s : stmt) : P s :=
  match s with
  | Print e => HPrint e
  | If c body =>
      HIf c body
        ((fix all (l : list stmt) : Forall P l :=
            match l with
            | [] => List.Forall_nil P
            | x :: r =>
                @List.Forall_cons _ P x r (stmt_ind_nested x) (all r)
            end) body)
  | Assign x e => HAssign x e
  end.
End StmtInd.

(** A result that is a value or a one-line exception. *)
Definition clean {A} (r : Res A) : Prop :=
  match r with
  | OK _ => True
  | Raise e => one_line (exn_str e)
  | Fuel => False
  end.

(** [sub] occurs in [e]. *)
Inductive subexpr (sub : expr) : expr -> Prop :=
| subexpr_here : subexpr sub sub
| subexpr_left op l r : subexpr sub l -> subexpr sub (BinaryOp op l r)
| subexpr_right op l r : subexpr sub r -> subexpr sub (BinaryOp op l r).

(** The expression a statement evaluates first. *)
Definition stmt_expr (s : stmt) : expr :=
  match s with
  | Print e => e
  | If condition _ => condition
  | Assign _ e => e
  end.

(** [reaches l it0 s it]: running the statements [l] from the state [it0]
    comes to execute the statement [s], at top level or inside the body of
    an [If] whose condition held, in the state [it]. *)
Inductive reaches : list stmt -> Interpreter.t -> stmt -> Interpreter.t -> Prop :=
| reaches_here s rest it : reaches (s :: rest) it s it
| reaches_next s0 rest it0 it1 s it :
    eval_stmt s0 it0 = OK it1 -> reaches rest it1 s it ->
    reaches (s0 :: rest) it0 s it
| reaches_body c body rest it0 v s it :
    eval_expr it0 c = OK v -> Py.truthy v = true ->
    reaches body it0 s it ->
    reaches (If c body :: rest) it0 s it.

(** The interpreter objects that earlier runs left behind, most recent
    first. *)
Definition World : Type := list Interpreter.t.

(** One invocation of [run_ezlang] in a world: the string returned and the
    world afterwards.  The call builds its own [Interpreter()]. *)
Definition invoke (code : string) (w : World) : option string * World :=
  match pipeline_on init code with
  | OK (out, it) => (Some out, it :: w)
  | Raise e => (Some ("Error: " +:+ exn_str e), w)
  | Fuel => (None, w)
  end.

End Notions.

(* ===================================================================== *)
(** * Notions used to state further properties *)
(* ===================================================================== *)

Section MoreNotions.
Import Text Regex Parser Interpreter.

(** Every character of [s] satisfies [p]. *)
Fixpoint all_chars (p : ascii -> bool) (s : string) : bool :=
  match s with
  | EmptyString => true
  | String c r => p c && all_chars p r
  end.

(** The exceptions of the evaluator and those of the parser. *)
Definition runtime_error (e : exn) : Prop :=
  exn_class_of e = TypeError \/ exn_class_of e = ZeroDivisionError.

Definition parse_error (e : exn) : Prop :=
  exn_class_of e = SyntaxError \/ exn_class_of e = IndexError.

Definition ZeroDivision : exn :=
  Exn ZeroDivisionError "integer division or modulo by zero".

(** An int or a bool. *)
Definition is_numeric (v : value) : bool :=
  match v with
  | VStr _ => false
  | _ => true
  end.

(** No string literal occurs in the expression, the statement. *)
Fixpoint no_text (e : expr) : bool :=
  match e with
  | StringLiteral _ => false
  | BinaryOp _ l r => no_text l && no_text r
  | _ => true
  end.

Fixpoint no_text_stmt (s : stmt) : bool :=
  match s with
  | Print e => no_text e
  | If c body => no_text c && forallb no_text_stmt body
  | Assign _ e => no_text e
  end.

(** Every variable holds an int or a bool. *)
Definition numeric_env (it : Interpreter.t) : Prop :=
  forall x v, vars it !! x = Some v -> is_numeric v = true.

(** No STRING token occurs in the list. *)
Definition no_string_token (toks : list token) : bool :=
  forallb (fun tk => negb (kind_eqb (tok_kind tk) K_STRING)) toks.

(** What a parser method keeps, on the token list [toks]: called with [pos]
    within the list it returns with the same tokens and [pos] no smaller
    and still within the list, and a result that satisfies [Q]; what it
    raises is a SyntaxError or an IndexError. *)
Definition sound {A} (toks : list token) (Q : A -> Prop) (m : M A) : Prop :=
  forall self,
    tokens self = toks -> (pos self <= length toks)%nat ->
    match m self with
    | OK (a, self') =>
        tokens self' = toks
        /\ (pos self <= pos self' <= length toks)%nat
        /\ Q a
    | Raise e => parse_error e
    | Fuel => True
    end.

(** Rendering an abstract syntax tree as tokens.  [prec] is the binding
    strength of an operator; [render lvl e] writes [e] where an operand of
    strength [lvl] is expected, between parentheses when [e] binds more
    weakly.  The left operand of an operator stands at the strength of the
    operator (of the additive ones for a comparison), the right operand one
    above. *)
Definition prec (o : binop) : nat :=
  match o with
  | Mul | Div => 2
  | Add | Sub => 1
  | Lt | Gt | Le | Ge | Eq => 0
  end.

Definition op_token (o : binop) : token :=
  match prec o with
  | O => COMPARE o
  | _ => OP o
  end.

Fixpoint render (lvl : nat) (e : expr) : list token :=
  match e with
  | IntLiteral n => [NUMBER n]
  | StringLiteral s => [STRING s]
  | VarRef x => [IDENTIFIER x]
  | BinaryOp o l r =>
      let body :=
        render (Nat.max 1 (prec o)) l ++ op_token o :: render (S (prec o)) r in
      if (lvl <=? prec o)%nat then body else LPAREN :: body ++ [RPAREN]
  end.

Fixpoint stmt_tokens (s : stmt) : list token :=
  match s with
  | Print e => PRINT :: render 0 e
  | If c body =>
      IF :: render 0 c ++ LBRACE
         :: (fix each (l : list stmt) : list token :=
               match l with
               | [] => []
               | x :: r => stmt_tokens x ++ each r
               end) body
         ++ [RBRACE]
  | Assign x e => IDENTIFIER x :: ASSIGN :: render 0 e
  end.

Fixpoint program_tokens (l : list stmt) : list token :=
  match l with
  | [] => []
  | s :: r => stmt_tokens s ++ program_tokens r
  end.

(** The number of nodes of an expression; the work a statement asks of the
    parser. *)
Fixpoint nodes (e : expr) : nat :=
  match e with
  | BinaryOp _ l r => S (nodes l + nodes r)
  | _ => 1
  end.

Fixpoint cost (s : stmt) : nat :=
  match s with
  | Print e => S (nodes e)
  | If c body =>
      S (nodes c
         + (fix each (l : list stmt) : nat :=
              match l with
              | [] => O
              | x :: r => S (cost x + each r)
              end) body)
  | Assign _ e => S (nodes e)
  end.

Fixpoint total_cost (l : list stmt) : nat :=
  match l with
  | [] => O
  | s :: r => S (cost s + total_cost r)
  end.

(** The tokens not yet consumed, and the state [k] tokens further on. *)
Definition remaining (self : Parser.t) : list token :=
  skipn (pos self) (tokens self).

Definition forward (k : nat) (self : Parser.t) : Parser.t :=
  {| tokens := tokens self; pos := (pos self + k)%nat |}.

(** The token that follows is not an operator of [ops]; it continues no
    multiplicative, no additive operand, no expression. *)
Definition no_op (ops : string) (rest : list token) : bool :=
  match rest with
  | OP o :: _ => negb (contains ops (binop_text o))
  | _ => true
  end.

Definition quiet2 (rest : list token) : bool := no_op "*/" rest.

Definition quiet1 (rest : list token) : bool :=
  no_op "*/" rest && no_op "+-" rest.

Definition quiet0 (rest : list token) : bool :=
  quiet1 rest
  && match rest with
     | COMPARE _ :: _ => false
     | _ => true
     end.

(** [e] is written between parentheses at strength [lvl]. *)
Definition parenthesized (lvl : nat) (e : expr) : bool :=
  match e with
  | BinaryOp o _ _ => negb (lvl <=? prec o)%nat
  | _ => false
  end.

(** The number of operators of strength [p] down the left spine of [e]:
    the iterations of the loop that reads [e]. *)
Fixpoint spine (p : nat) (e : expr) : nat :=
  match e with
  | BinaryOp o l _ => if (prec o =? p)%nat then S (spine p l) else O
  | _ => O
  end.

(** [parse_add_sub] with the bound of its loop set apart from the bound
    handed to [parse_mul_div]. *)
Definition add_from (rec : M expr) (n k : nat) : M expr :=
  bind (parse_mul_div rec n)
       (fun node => binary_loop "+-" (parse_mul_div rec n) k node).

(** [rec] reads [x] when [x] is followed by a closing parenthesis. *)
Definition closes (rec : M expr) (x : expr) : Prop :=
  forall self rest,
    remaining self = render 0 x ++ RPAREN :: rest ->
    rec self = OK (x, forward (length (render 0 x)) self).

(** [e] may stand at strength [lvl] when expressions of fewer than [h]
    nodes are read between parentheses: [e] has at most [h] nodes, fewer
    when it is itself written between parentheses. *)
Definition fits (h lvl : nat) (e : expr) : Prop :=
  (nodes e <= h)%nat /\ (parenthesized lvl e = true -> (nodes e < h)%nat).

(** The limits of the host on which results depend.  A conversion between
    int and str is refused beyond [max_str_digits] digits.  An index is at
    least 32 bits wide, so [index_max] is an index on every host; a str
    times an int is refused when the count or the length of the result is
    no index. *)
Definition max_str_digits : nat := 4300.

Definition index_max : Z := 2 ^ 31 - 1.

Definition fits_index (n : Z) (s : string) : Prop :=
  - index_max - 1 <= n <= index_max
  /\ Z.of_nat (String.length s) * n <= index_max.

(** The token can begin an operand. *)
Definition starts_operand (tk : token) : bool :=
  match tk with
  | NUMBER _ | STRING _ | IDENTIFIER _ | LPAREN => true
  | _ => false
  end.

(** The tokens after which a statement has its first expression. *)
Definition expects_expression (opener : list token) : bool :=
  match opener with
  | [PRINT] | [IF] | [IDENTIFIER _; ASSIGN] => true
  | _ => false
  end.

(** The token can begin a statement, given the one after it. *)
Definition starts_statement (rest : list token) : bool :=
  match rest with
  | PRINT :: _ | IF :: _ | IDENTIFIER _ :: ASSIGN :: _ => true
  | _ => false
  end.

End MoreNotions.

(* ===================================================================== *)
(** * Facts about text *)
(* ===================================================================== *)

Section TextFacts.
Import Text.

Lemma startswith_spec p s :
  startswith p s = true <-> exists r, s = p +:+ r.
Proof.
  revert s; induction p as [|a p IH]; intros s; simpl.
  - split; [intros _; exists s; reflexivity | reflexivity].
  - destruct s as [|b s]; simpl.
    + split; [discriminate | intros [r Hr]; discriminate].
    + rewrite andb_true_iff, Ascii.eqb_eq, IH. split.
      * intros [-> [r ->]]. exists r. reflexivity.
      * intros [r Hr]. injection Hr as -> ->. split; eauto.
Qed.

Lemma startswith_take p n s :
  startswith p (take n s) = true -> startswith p s = true.
Proof.
  revert n s; induction p as [|a p IH]; intros n s; simpl; [reflexivity|].
  destruct n, s; simpl; try discriminate.
  rewrite !andb_true_iff. intros [? ?]; split; eauto.
Qed.

Lemma length_take n s : String.length (take n s) = Nat.min n (String.length s).
Proof.
  revert s; induction n as [|n IH]; intros [|c s]; simpl; auto.
Qed.

Lemma take_length_ge n s : (String.length s <= n)%nat -> take n s = s.
Proof.
  revert s; induction n as [|n IH]; intros [|c s]; simpl; intros H;
    try reflexivity; try lia.
  f_equal. apply IH. lia.
Qed.

Lemma mem_spec c s : mem c s = true <-> In c (list_ascii_of_string s).
Proof.
  induction s as [|a s IH]; simpl.
  - split; [discriminate | tauto].
  - rewrite orb_true_iff, Ascii.eqb_eq, IH. tauto.
Qed.

End TextFacts.

(* ===================================================================== *)
(** * Facts about the lexer *)
(* ===================================================================== *)

Section LexerFacts.
Import Text Regex.

Lemma span_le p s : (span p s <= String.length s)%nat.
Proof. induction s as [|c s IH]; simpl; [lia | destruct (p c); lia]. Qed.

Lemma plus_bounds p s n :
  plus p s = Some n -> (1 <= n <= String.length s)%nat.
Proof.
  unfold plus. pose proof (span_le p s).
  destruct (span p s) eqn:E; intros [=]; subst. lia.
Qed.

Lemma startswith_length p s :
  startswith p s = true -> (String.length p <= String.length s)%nat.
Proof.
  revert s; induction p as [|a p IH]; intros [|b s]; simpl;
    try lia; try discriminate.
  rewrite andb_true_iff. intros [_ H]. apply IH in H. lia.
Qed.

Lemma lit_bounds w s n :
  lit w s = Some n -> n = String.length w /\ startswith w s = true.
Proof.
  unfold lit. destruct (startswith w s) eqn:E; intros [=]; subst; auto.
Qed.

Lemma length_drop n s :
  String.length (drop n s) = (String.length s - n)%nat.
Proof.
  revert s; induction n as [|n IH]; intros [|c s]; simpl; auto.
Qed.

Lemma string_lit_bounds s n :
  string_lit s = Some n -> (1 <= n <= String.length s)%nat.
Proof.
  destruct s as [|c r]; simpl; [discriminate|].
  destruct (Ascii.eqb c dquote); [|discriminate].
  pose proof (length_drop (span not_dquote r) r) as Hd.
  destruct (drop (span not_dquote r) r) eqn:E; [discriminate|].
  intros [= <-]. simpl in Hd. lia.
Qed.

Lemma arith_bounds s n :
  arith s = Some n -> (1 <= n <= String.length s)%nat.
Proof.
  destruct s as [|c r]; [discriminate|]. unfold arith.
  destruct (mem c "+-*/"); intros [=]; subst. simpl. lia.
Qed.

Lemma compare_bounds s n :
  compare s = Some n -> (1 <= n <= String.length s)%nat.
Proof.
  destruct s as [|c r]; [discriminate|]. unfold compare.
  destruct (mem c "<>").
  - destruct (startswith "=" r) eqn:E; intros [= <-]; simpl; [|lia].
    apply startswith_length in E. simpl in E. lia.
  - intros H. apply lit_bounds in H as [-> H].
    apply startswith_length in H. simpl in *. lia.
Qed.

Lemma first_match_tried specs s k n :
  first_match specs s = Some (k, n) -> tried specs s k n.
Proof.
  induction specs as [|[k0 re] rest IH]; simpl; [discriminate|].
  destruct (re s) eqn:E.
  - intros [= <- <-]. now constructor.
  - intros H. apply tried_later; auto.
Qed.

Lemma tried_cons_inv k0 re rest s k n :
  tried ((k0, re) :: rest) s k n ->
  (k = k0 /\ re s = Some n) \/ (re s = None /\ tried rest s k n).
Proof. inversion 1; subst; auto. Qed.

Lemma tried_nil_inv s k n : tried [] s k n -> False.
Proof. inversion 1. Qed.

(** Case analysis on which pattern matched; the cases whose kind differs
    from the one in [H] are closed on the spot. *)
Ltac walk H :=
  repeat (apply tried_cons_inv in H;
          destruct H as [[? ?] | [? H]]; [try discriminate | ]);
  try (apply tried_nil_inv in H; destruct H).

Lemma match_at_bounds s k n :
  match_at s = Some (k, n) -> (1 <= n <= String.length s)%nat.
Proof.
  intros H. apply first_match_tried in H. unfold token_specs in H.
  walk H; subst;
    first [ eapply plus_bounds; eassumption
          | eapply string_lit_bounds; eassumption
          | eapply arith_bounds; eassumption
          | eapply compare_bounds; eassumption
          | match goal with
            | E : lit _ _ = Some _ |- _ =>
                apply lit_bounds in E as [-> E];
                apply startswith_length in E; simpl in *; lia
            end ].
Qed.

(** An IDENTIFIER match is tried only where neither keyword matches. *)
Lemma match_at_identifier s n :
  match_at s = Some (K_IDENTIFIER, n) ->
  startswith "print" s = false /\ startswith "if" s = false.
Proof.
  intros H. apply first_match_tried in H. unfold token_specs in H.
  walk H; try discriminate.
  unfold lit in *.
  destruct (startswith "print" s); [discriminate|].
  destruct (startswith "if" s); [discriminate|]. auto.
Qed.

(** A COMPARE match is tried only where ASSIGN does not match. *)
Lemma match_at_compare s n :
  match_at s = Some (K_COMPARE, n) -> startswith "=" s = false.
Proof.
  intros H. apply first_match_tried in H. unfold token_specs in H.
  walk H; try discriminate.
  unfold lit in *.
  destruct (startswith "=" s); [discriminate|]. auto.
Qed.

(** The text of an OP or COMPARE match spells an operator, so the loop
    of [lex] appends a token for every match but SKIP. *)
Lemma match_at_operator s k n :
  match_at s = Some (k, n) -> k = K_OP \/ k = K_COMPARE ->
  is_Some (binop_of_text (take n s)).
Proof.
  intros H Hk. apply first_match_tried in H. unfold token_specs in H.
  walk H; subst; try (destruct Hk; discriminate).
  - match goal with E : arith _ = Some _ |- _ => rename E into Ha end.
    destruct s as [|c r]; [discriminate|]. unfold arith in Ha.
    destruct (mem c "+-*/") eqn:Hc; [|discriminate].
    injection Ha as <-.
    apply mem_spec in Hc. simpl in Hc.
    destruct Hc as [<-|[<-|[<-|[<-|[]]]]]; simpl; eauto.
  - match goal with E : compare _ = Some _ |- _ => rename E into Ha end.
    destruct s as [|c r]; [discriminate|]. unfold compare in Ha.
    destruct (mem c "<>") eqn:Hc.
    + apply mem_spec in Hc. simpl in Hc.
      destruct (startswith "=" r) eqn:Hr; injection Ha as <-.
      * apply startswith_spec in Hr as [r' ->].
        destruct Hc as [<-|[<-|[]]]; simpl; eauto.
      * destruct Hc as [<-|[<-|[]]]; simpl; eauto.
    + apply lit_bounds in Ha as [-> Ha].
      apply startswith_spec in Ha as [r' Ha].
      rewrite Ha. simpl. eauto.
Qed.

(** Every match of [scan] is a match of [token_regex] at its start. *)
Lemma scan_elem s : forall skip pos m,
  m ∈ scan skip pos s ->
  exists n, match_at (drop (m_start m - pos) s) = Some (lastgroup m, n)
            /\ group m = take n (drop (m_start m - pos) s)
            /\ (pos + skip <= m_start m)%nat.
Proof.
  induction s as [|c r IH]; intros skip pos m; simpl scan.
  - intros H. inversion H.
  - destruct skip as [|k].
    + destruct (match_at (String c r)) as [[kd n]|] eqn:E.
      * intros H. apply elem_of_cons in H as [->|H].
        -- exists n. simpl. rewrite Nat.sub_diag. simpl.
           repeat split; auto. lia.
        -- apply IH in H as (n' & H1 & H2 & H3).
           exists n'. replace (m_start m - pos)%nat
             with (S (m_start m - S pos)) by lia.
           simpl. repeat split; auto. lia.
      * intros H. apply IH in H as (n' & H1 & H2 & H3).
        exists n'. replace (m_start m - pos)%nat
          with (S (m_start m - S pos)) by lia.
        simpl. repeat split; auto. lia.
    + intros H. apply IH in H as (n' & H1 & H2 & H3).
      exists n'. replace (m_start m - pos)%nat
        with (S (m_start m - S pos)) by lia.
      simpl. repeat split; auto. lia.
Qed.

Lemma lex_match_total code m :
  m ∈ finditer code -> lastgroup m <> K_SKIP -> is_Some (lex_match m).
Proof.
  intros H Hk. apply scan_elem in H as (n & H1 & H2 & _).
  unfold lex_match. rewrite H2.
  destruct (lastgroup m) eqn:E; try (eexists; reflexivity); try congruence.
  - eapply match_at_operator in H1 as [o ->]; eauto; eexists; reflexivity.
  - eapply match_at_operator in H1 as [o ->]; eauto; eexists; reflexivity.
Qed.

(** The tokens do not depend on the offset the scan counts from. *)
Lemma tokens_of_scan_offset s : forall skip pos pos',
  tokens_of (scan skip pos s) = tokens_of (scan skip pos' s).
Proof.
  induction s as [|c r IH]; intros skip pos pos'; simpl scan; auto.
  destruct skip as [|k]; auto.
  destruct (match_at (String c r)) as [[kd n]|]; auto.
  unfold tokens_of in *. cbn [omap list_omap].
  change (lex_match {| m_start := pos'; lastgroup := kd;
                       group := take n (String c r) |})
    with (lex_match {| m_start := pos; lastgroup := kd;
                       group := take n (String c r) |}).
  rewrite (IH _ (S pos) (S pos')). reflexivity.
Qed.

Lemma scan_starts s : forall skip pos,
  Forall (fun m => (pos + skip <= m_start m)%nat) (scan skip pos s).
Proof.
  intros skip pos. apply Forall_forall. intros m Hm.
  apply scan_elem in Hm as (? & _ & _ & ?). auto.
Qed.

Lemma filter_none {A} (P : A -> Prop) `{!forall x, Decision (P x)} l :
  Forall (fun x => ~ P x) l -> filter P l = [].
Proof.
  induction 1 as [|x l Hx _ IH]; [reflexivity|].
  rewrite filter_cons_False by exact Hx. exact IH.
Qed.

(** Scanning past a position that no match covers: the matches before it,
    then the scan of the text after it, begun afresh. *)
Lemma scan_split s : forall skip pos k,
  (skip <= k < String.length s)%nat ->
  Forall (fun m => ~ inside (pos + k) m) (scan skip pos s) ->
  scan skip pos s
  = filter (fun m => (m_start m < pos + k)%nat) (scan skip pos s)
    ++ scan O (S (pos + k)) (drop (S k) s).
Proof.
  induction s as [|c r IH]; intros skip pos k Hk Hcov; simpl in Hk; [lia|].
  simpl scan in Hcov. simpl scan. destruct skip as [|sk].
  - destruct (match_at (String c r)) as [[kd n]|] eqn:E.
    + apply Forall_cons in Hcov as [Hm Hcov].
      apply match_at_bounds in E as Hn.
      unfold inside, m_end in Hm. simpl in Hm.
      rewrite length_take in Hm. simpl String.length in *.
      destruct k as [|k']; [lia|].
      rewrite filter_cons_True by (simpl; lia).
      rewrite Nat.add_succ_r in *. simpl. f_equal.
      apply (IH (Nat.pred n) (S pos) k'); [lia | exact Hcov].
    + destruct k as [|k'].
      * rewrite Nat.add_0_r in *. simpl.
        rewrite filter_none; [reflexivity|].
        eapply Forall_impl; [apply scan_starts|]. simpl. intros; lia.
      * rewrite Nat.add_succ_r in *. simpl.
        apply (IH O (S pos) k'); [lia | exact Hcov].
  - destruct k as [|k']; [lia|].
    rewrite Nat.add_succ_r in *. simpl.
    apply (IH sk (S pos) k'); [lia | exact Hcov].
Qed.

End LexerFacts.

(* ===================================================================== *)
(** * Messages are single lines *)
(* ===================================================================== *)

Section OneLine.
Import Text.

Lemma mem_app c a b : mem c (a +:+ b) = mem c a || mem c b.
Proof.
  induction a as [|x a IH]; simpl; [reflexivity|].
  rewrite IH. apply orb_assoc.
Qed.

Lemma one_line_app a b : one_line a -> one_line b -> one_line (a +:+ b).
Proof. unfold one_line. rewrite mem_app. intros -> ->. reflexivity. Qed.

Lemma one_line_cons c s :
  c <> LF -> one_line s -> one_line (String c s).
Proof.
  unfold one_line. simpl. intros Hc ->.
  rewrite orb_false_r. apply Ascii.eqb_neq. exact Hc.
Qed.

Lemma one_line_uint d : one_line (NilEmpty.string_of_uint d).
Proof. induction d; simpl; try reflexivity; apply one_line_cons; auto; discriminate. Qed.

Lemma one_line_str_int n : one_line (str_int n).
Proof.
  unfold str_int, NilZero.string_of_int, NilZero.string_of_uint.
  destruct (Z.to_int n) as [d|d]; [|apply one_line_cons; [discriminate|]];
    destruct d; try reflexivity; apply one_line_uint.
Qed.

Lemma one_line_hex_digit n : Py.hex_digit n <> LF.
Proof.
  unfold Py.hex_digit.
  do 16 (destruct n as [|n]; [discriminate|]). discriminate.
Qed.

Lemma one_line_escape q c : q <> LF -> one_line (Py.escape q c).
Proof.
  intros Hq. unfold Py.escape.
  destruct (Ascii.eqb c q || Ascii.eqb c backslash) eqn:E1.
  - apply one_line_cons; [discriminate|].
    apply one_line_cons; [|reflexivity].
    apply orb_true_iff in E1 as [E|E]; apply Ascii.eqb_eq in E; subst;
      [exact Hq | discriminate].
  - destruct (Ascii.eqb c TAB); [reflexivity|].
    destruct (Ascii.eqb c LF) eqn:E2; [reflexivity|].
    destruct (Ascii.eqb c CR); [reflexivity|].
    destruct (Py.printable c).
    + apply one_line_cons; [|reflexivity]. apply Ascii.eqb_neq. exact E2.
    + apply one_line_cons; [discriminate|].
      apply one_line_cons; [discriminate|].
      apply one_line_cons; [apply one_line_hex_digit|].
      apply one_line_cons; [apply one_line_hex_digit|reflexivity].
Qed.

Lemma one_line_escape_all q s : q <> LF -> one_line (Py.escape_all q s).
Proof.
  intros Hq. induction s as [|c s IH]; simpl; [reflexivity|].
  apply one_line_app; [apply one_line_escape; exact Hq | exact IH].
Qed.

Lemma one_line_repr_str s : one_line (Py.repr_str s).
Proof.
  unfold Py.repr_str.
  destruct (mem squote s && negb (mem dquote s));
    (apply one_line_cons; [discriminate|]);
    (apply one_line_app; [apply one_line_escape_all; discriminate | reflexivity]).
Qed.

Lemma one_line_kind_name k : one_line (kind_name k).
Proof. destruct k; reflexivity. Qed.

Lemma one_line_sq s : one_line s -> one_line (Py.sq s).
Proof.
  intros H. unfold Py.sq. apply one_line_cons; [discriminate|].
  apply one_line_app; [exact H | reflexivity].
Qed.

Lemma one_line_repr_token tk : one_line (repr_token tk).
Proof.
  unfold repr_token.
  apply one_line_app; [reflexivity|].
  apply one_line_app; [apply one_line_sq, one_line_kind_name|].
  apply one_line_app; [reflexivity|].
  apply one_line_app; [|reflexivity].
  destruct tk; first [apply one_line_str_int | apply one_line_repr_str].
Qed.

Lemma one_line_type_name v : one_line (Py.type_name v).
Proof. destruct v; reflexivity. Qed.

End OneLine.

(* ===================================================================== *)
(** * The parser terminates *)
(* ===================================================================== *)

Section ParserFacts.
Import Parser.

Lemma ok_weaken {A} self (r : Res (A * Parser.t)) :
  ok true self r -> ok false self r.
Proof. destruct r as [[a self']| |]; simpl; auto. intros [? ?]; split; auto; lia. Qed.

Lemma ok_bind_l {A B} (m : M A) (f : A -> M B) self :
  ok true self (m self) ->
  (forall a self', tokens self' = tokens self -> (rem self' < rem self)%nat ->
                   ok false self' (f a self')) ->
  ok true self (bind m f self).
Proof.
  unfold bind. destruct (m self) as [[a self']| |]; simpl; auto.
  intros [Ht Hr] Hf. specialize (Hf a self' Ht Hr).
  destruct (f a self') as [[b self'']| |]; simpl in *; auto.
  destruct Hf as [Ht' Hr']. unfold rem in *.
  rewrite Ht' in *. rewrite Ht in *. split; auto. lia.
Qed.

Lemma ok_bind_r {A B} (m : M A) (f : A -> M B) self :
  ok false self (m self) ->
  (forall a self', tokens self' = tokens self -> (rem self' <= rem self)%nat ->
                   ok true self' (f a self')) ->
  ok true self (bind m f self).
Proof.
  unfold bind. destruct (m self) as [[a self']| |]; simpl; auto.
  intros [Ht Hr] Hf. specialize (Hf a self' Ht Hr).
  destruct (f a self') as [[b self'']| |]; simpl in *; auto.
  destruct Hf as [Ht' Hr']. unfold rem in *.
  rewrite Ht' in *. rewrite Ht in *. split; auto. lia.
Qed.

Lemma ok_bind_w {A B} (m : M A) (f : A -> M B) self :
  ok false self (m self) ->
  (forall a self', tokens self' = tokens self -> (rem self' <= rem self)%nat ->
                   ok false self' (f a self')) ->
  ok false self (bind m f self).
Proof.
  unfold bind. destruct (m self) as [[a self']| |]; simpl; auto.
  intros [Ht Hr] Hf. specialize (Hf a self' Ht Hr).
  destruct (f a self') as [[b self'']| |]; simpl in *; auto.
  destruct Hf as [Ht' Hr']. unfold rem in *.
  rewrite Ht' in *. rewrite Ht in *. split; auto. lia.
Qed.

Lemma ok_ret {A} (a : A) self : ok false self (ret a self).
Proof. simpl. auto. Qed.

Lemma advance_rem self tk :
  tokens self !! pos self = Some tk ->
  tokens (advance self) = tokens self /\ (rem (advance self) < rem self)%nat.
Proof.
  intros H. apply lookup_lt_Some in H. unfold rem, advance. simpl. split; [reflexivity | lia].
Qed.

Lemma current_spec self :
  current self = match tokens self !! pos self with
                 | Some tk => OK (tk, self)
                 | None => Raise IndexError_list
                 end.
Proof. reflexivity. Qed.

Lemma consume_ok k self : ok true self (consume k self).
Proof.
  unfold consume, peek, bind, raise. rewrite current_spec.
  destruct (tokens self !! pos self) as [tk|] eqn:E; [|reflexivity].
  destruct (kind_eqb (tok_kind tk) k); simpl.
  - eapply advance_rem; eauto.
  - apply one_line_app; [reflexivity|].
    apply one_line_app; [apply one_line_kind_name|].
    apply one_line_app; [reflexivity | apply one_line_kind_name].
Qed.

Lemma consume_identifier_ok self : ok true self (consume_identifier self).
Proof.
  unfold consume_identifier.
  destruct (tokens self !! pos self) as [tk|] eqn:E; [|reflexivity].
  destruct tk; simpl; try reflexivity.
  eapply advance_rem; eauto.
Qed.

Lemma syntax_error_at_ok {A} b prefix self :
  one_line prefix -> ok b self (@syntax_error_at A prefix self).
Proof.
  intros Hp. unfold syntax_error_at, bind, raise. rewrite current_spec.
  destruct (tokens self !! pos self) as [tk|]; simpl; [|reflexivity].
  apply one_line_app; [exact Hp | apply one_line_repr_token].
Qed.

Section ExpressionsOk.
Variable parse_expr : M expr.
Variable f : nat.
Hypothesis Hrec :
  forall self, (rem self < f)%nat -> ok true self (parse_expr self).

Lemma parse_primary_ok self :
  (rem self <= f)%nat -> ok true self (parse_primary parse_expr self).
Proof.
  intros Hf. unfold parse_primary.
  destruct (tokens self !! pos self) as [tk|] eqn:E;
    [| apply syntax_error_at_ok; reflexivity].
  destruct tk; try (apply syntax_error_at_ok; reflexivity);
    try (simpl; eapply advance_rem; eassumption).
  apply ok_bind_l; [apply consume_ok|]. intros _ s1 Ht1 Hr1.
  apply ok_weaken. apply ok_bind_l; [apply Hrec; lia|].
  intros node s2 Ht2 Hr2.
  apply ok_weaken. apply ok_bind_l; [apply consume_ok|].
  intros _ s3 _ _. apply ok_ret.
Qed.

Lemma binary_loop_ok ops (operand : M expr) :
  (forall self, (rem self <= f)%nat -> ok true self (operand self)) ->
  forall n node self,
    (rem self <= n)%nat -> (rem self <= f)%nat ->
    ok false self (binary_loop ops operand n node self).
Proof.
  intros Hop. induction n as [|n IH]; intros node self Hn Hf; simpl;
    destruct (tokens self !! pos self) as [tk|] eqn:E; try apply ok_ret;
    destruct tk; try apply ok_ret;
    destruct (contains ops (binop_text o)); try apply ok_ret;
    pose proof (advance_rem _ _ E) as [Ht Hr].
  - lia.
  - assert (ok false (advance self)
              (bind operand
                 (fun rhs => binary_loop ops operand n (BinaryOp o node rhs))
                 (advance self))) as H.
    { apply ok_bind_w; [apply ok_weaken, Hop; lia|].
      intros rhs s1 Ht1 Hr1. apply IH; lia. }
    destruct (bind operand _ (advance self)) as [[a s']| |];
      simpl in *; auto.
    destruct H as [H1 H2]. split; [congruence | lia].
Qed.

Lemma parse_mul_div_ok n self :
  (f <= n)%nat -> (rem self <= f)%nat ->
  ok true self (parse_mul_div parse_expr n self).
Proof.
  intros Hn Hf. unfold parse_mul_div.
  apply ok_bind_l; [apply parse_primary_ok; exact Hf|].
  intros node s1 Ht1 Hr1.
  apply binary_loop_ok; [apply parse_primary_ok | lia | lia].
Qed.

Lemma parse_add_sub_ok n self :
  (f <= n)%nat -> (rem self <= f)%nat ->
  ok true self (parse_add_sub parse_expr n self).
Proof.
  intros Hn Hf. unfold parse_add_sub.
  apply ok_bind_l; [apply parse_mul_div_ok; assumption|].
  intros node s1 Ht1 Hr1.
  apply binary_loop_ok; [|lia|lia].
  intros s2 H2. apply parse_mul_div_ok; assumption.
Qed.

Lemma parse_compare_ok n self :
  (f <= n)%nat -> (rem self <= f)%nat ->
  ok true self (parse_compare parse_expr n self).
Proof.
  intros Hn Hf. unfold parse_compare.
  apply ok_bind_l; [apply parse_add_sub_ok; assumption|].
  intros l s1 Ht1 Hr1.
  destruct (tokens s1 !! pos s1) as [tk|] eqn:E; [|apply ok_ret].
  destruct tk; try apply ok_ret.
  pose proof (advance_rem _ _ E) as [Ht Hr].
  assert (ok true (advance s1)
            (bind (parse_add_sub parse_expr n)
               (fun r => ret (BinaryOp o l r)) (advance s1))) as H.
  { apply ok_bind_l; [apply parse_add_sub_ok; [assumption | lia]|].
    intros; apply ok_ret. }
  destruct (bind _ _ (advance s1)) as [[a s']| |]; simpl in *; auto.
  destruct H as [H1 H2]. split; [congruence | lia].
Qed.

End ExpressionsOk.

Lemma parse_expr_ok f : forall self,
  (rem self < f)%nat -> ok true self (parse_expr f self).
Proof.
  induction f as [|f IH]; intros self Hf; [lia|].
  simpl. apply parse_compare_ok with (f := f); [exact IH | lia | lia].
Qed.

Section StatementsOk.
Variable f : nat.
Variable parse_stmt : M stmt.
Hypothesis Hrec :
  forall self, (rem self < f)%nat -> ok true self (parse_stmt self).

Lemma parse_print_ok self :
  (rem self <= f)%nat -> ok true self (parse_print f self).
Proof.
  intros Hf. unfold parse_print.
  apply ok_bind_l; [apply consume_ok|]. intros _ s1 Ht1 Hr1.
  apply ok_weaken, ok_bind_l; [apply parse_expr_ok; lia|].
  intros; apply ok_ret.
Qed.

Lemma if_body_ok : forall n body self,
  (rem self < n)%nat -> (rem self < f)%nat ->
  ok false self (if_body parse_stmt n body self).
Proof.
  induction n as [|n IH]; intros body self Hn Hf; [lia|].
  simpl. destruct (peek K_RBRACE self); [apply ok_ret|].
  apply ok_weaken, ok_bind_l; [apply Hrec; exact Hf|].
  intros s0 s1 Ht1 Hr1. apply IH; lia.
Qed.

Lemma parse_if_ok self :
  (rem self <= f)%nat -> ok true self (parse_if f parse_stmt self).
Proof.
  intros Hf. unfold parse_if.
  apply ok_bind_l; [apply consume_ok|]. intros _ s1 Ht1 Hr1.
  apply ok_weaken, ok_bind_l; [apply parse_expr_ok; lia|].
  intros c s2 Ht2 Hr2.
  apply ok_weaken, ok_bind_l; [apply consume_ok|]. intros _ s3 Ht3 Hr3.
  apply ok_weaken, ok_bind_r; [apply if_body_ok; lia|].
  intros body s4 Ht4 Hr4.
  apply ok_bind_l; [apply consume_ok|]. intros; apply ok_ret.
Qed.

Lemma parse_assignment_ok self :
  (rem self <= f)%nat -> ok true self (parse_assignment f self).
Proof.
  intros Hf. unfold parse_assignment.
  apply ok_bind_l; [apply consume_identifier_ok|]. intros x s1 Ht1 Hr1.
  apply ok_weaken, ok_bind_l; [apply consume_ok|]. intros _ s2 Ht2 Hr2.
  apply ok_weaken, ok_bind_l; [apply parse_expr_ok; lia|].
  intros; apply ok_ret.
Qed.

Lemma parse_stmt_body_ok self :
  (rem self <= f)%nat -> ok true self (parse_stmt_body f parse_stmt self).
Proof.
  intros Hf. unfold parse_stmt_body.
  destruct (peek K_PRINT self); [apply parse_print_ok; exact Hf|].
  destruct (peek K_IF self); [apply parse_if_ok; exact Hf|].
  destruct (peek K_IDENTIFIER self && peek_next K_ASSIGN self);
    [apply parse_assignment_ok; exact Hf|].
  apply syntax_error_at_ok. reflexivity.
Qed.

End StatementsOk.

Lemma parse_stmt_ok f : forall self,
  (rem self < f)%nat -> ok true self (parse_stmt f self).
Proof.
  induction f as [|f IH]; intros self Hf; [lia|].
  simpl. apply parse_stmt_body_ok; [exact IH | lia].
Qed.

Lemma parse_loop_ok fuel : forall n stmts self,
  (rem self <= n)%nat -> (rem self < fuel)%nat ->
  ok false self (parse_loop fuel n stmts self).
Proof.
  induction n as [|n IH]; intros stmts self Hn Hf; simpl;
    destruct (pos self <? length (tokens self))%nat eqn:E;
    try apply ok_ret; apply Nat.ltb_lt in E.
  - unfold rem in Hn. lia.
  - apply ok_weaken, ok_bind_l; [apply parse_stmt_ok; exact Hf|].
    intros s0 s1 Ht1 Hr1. apply IH; lia.
Qed.

(** [parse] returns or raises, and what it raises has a one-line
    message. *)
Lemma parse_total toks :
  match parse toks with
  | OK _ => True
  | Raise e => one_line (exn_str e)
  | Fuel => False
  end.
Proof.
  unfold parse, parse_with, fmap, Res_fmap.
  assert (ok false (init toks)
            (parse_loop (S (length toks)) (S (length toks)) [] (init toks)))
    as H by (apply parse_loop_ok; unfold rem; simpl; lia).
  destruct (parse_loop _ _ _ _) as [[a s']| |]; simpl in *; auto.
Qed.

End ParserFacts.

(* ===================================================================== *)
(** * The result of the parser does not depend on the fuel *)
(* ===================================================================== *)

Section FuelIrrelevance.
Import Parser.

Lemma below_refl {A} (m : M A) : below_M m m.
Proof. intros self. right. reflexivity. Qed.

Lemma below_bind {A B} (m m' : M A) (f f' : A -> M B) :
  below_M m m' -> (forall a, below_M (f a) (f' a)) ->
  below_M (bind m f) (bind m' f').
Proof.
  intros Hm Hf self. unfold bind.
  destruct (Hm self) as [-> | <-]; [left; reflexivity|].
  destruct (m self) as [[a self']| |]; [apply Hf | right | left]; reflexivity.
Qed.

Lemma parse_primary_below (rec rec' : M expr) :
  below_M rec rec' -> below_M (parse_primary rec) (parse_primary rec').
Proof.
  intros Hrec self. unfold parse_primary.
  destruct (tokens self !! pos self) as [[]|]; try (right; reflexivity).
  apply below_bind; [apply below_refl|]. intros _.
  apply below_bind; [exact Hrec|]. intros node. apply below_refl.
Qed.

Lemma binary_loop_below ops (operand operand' : M expr) :
  below_M operand operand' ->
  forall n n', (n <= n')%nat -> forall node,
    below_M (binary_loop ops operand n node)
            (binary_loop ops operand' n' node).
Proof.
  intros Hop. induction n as [|n IH]; intros n' Hn node self.
  - simpl. destruct (tokens self !! pos self) as [[]|] eqn:E;
      try (destruct n'; simpl; rewrite E; right; reflexivity).
    destruct (contains ops (binop_text o)) eqn:Ec; [left; reflexivity|].
    destruct n'; simpl; rewrite E, Ec; right; reflexivity.
  - destruct n' as [|n']; [lia|]. simpl.
    destruct (tokens self !! pos self) as [[]|]; try (right; reflexivity).
    destruct (contains ops (binop_text o)); [|right; reflexivity].
    apply below_bind; [exact Hop|]. intros rhs. apply IH. lia.
Qed.

Lemma parse_mul_div_below (rec rec' : M expr) n n' :
  below_M rec rec' -> (n <= n')%nat ->
  below_M (parse_mul_div rec n) (parse_mul_div rec' n').
Proof.
  intros Hrec Hn. unfold parse_mul_div.
  apply below_bind; [apply parse_primary_below; exact Hrec|]. intros node.
  apply binary_loop_below; [apply parse_primary_below; exact Hrec | exact Hn].
Qed.

Lemma parse_add_sub_below (rec rec' : M expr) n n' :
  below_M rec rec' -> (n <= n')%nat ->
  below_M (parse_add_sub rec n) (parse_add_sub rec' n').
Proof.
  intros Hrec Hn. unfold parse_add_sub.
  apply below_bind; [apply parse_mul_div_below; assumption|]. intros node.
  apply binary_loop_below; [apply parse_mul_div_below; assumption | exact Hn].
Qed.

Lemma parse_compare_below (rec rec' : M expr) n n' :
  below_M rec rec' -> (n <= n')%nat ->
  below_M (parse_compare rec n) (parse_compare rec' n').
Proof.
  intros Hrec Hn. unfold parse_compare.
  apply below_bind; [apply parse_add_sub_below; assumption|].
  intros l self.
  destruct (tokens self !! pos self) as [[]|]; try (right; reflexivity).
  apply below_bind; [apply parse_add_sub_below; assumption|].
  intros r. apply below_refl.
Qed.

Lemma parse_expr_below f : forall f',
  (f <= f')%nat -> below_M (parse_expr f) (parse_expr f').
Proof.
  induction f as [|f IH]; intros f' Hf; [intros self; left; reflexivity|].
  destruct f' as [|f']; [lia|]. simpl.
  apply parse_compare_below; [apply IH|]; lia.
Qed.

Lemma if_body_below (rec rec' : M stmt) :
  below_M rec rec' ->
  forall n n', (n <= n')%nat -> forall body,
    below_M (if_body rec n body) (if_body rec' n' body).
Proof.
  intros Hrec. induction n as [|n IH]; intros n' Hn body self.
  - simpl. destruct (peek K_RBRACE self) eqn:E; [|left; reflexivity].
    destruct n'; simpl; rewrite E; right; reflexivity.
  - destruct n' as [|n']; [lia|]. simpl.
    destruct (peek K_RBRACE self); [right; reflexivity|].
    apply below_bind; [exact Hrec|]. intros s0. apply IH. lia.
Qed.

Lemma parse_stmt_body_below (rec rec' : M stmt) f f' :
  below_M rec rec' -> (f <= f')%nat ->
  below_M (parse_stmt_body f rec) (parse_stmt_body f' rec').
Proof.
  intros Hrec Hf self. unfold parse_stmt_body.
  destruct (peek K_PRINT self).
  { apply below_bind; [apply below_refl|]. intros _.
    apply below_bind; [apply parse_expr_below; exact Hf|].
    intros e. apply below_refl. }
  destruct (peek K_IF self).
  { apply below_bind; [apply below_refl|]. intros _.
    apply below_bind; [apply parse_expr_below; exact Hf|]. intros c.
    apply below_bind; [apply below_refl|]. intros _.
    apply below_bind; [apply if_body_below; assumption|]. intros body.
    apply below_refl. }
  destruct (peek K_IDENTIFIER self && peek_next K_ASSIGN self);
    [|right; reflexivity].
  apply below_bind; [apply below_refl|]. intros x.
  apply below_bind; [apply below_refl|]. intros _.
  apply below_bind; [apply parse_expr_below; exact Hf|].
  intros e. apply below_refl.
Qed.

Lemma parse_stmt_below f : forall f',
  (f <= f')%nat -> below_M (parse_stmt f) (parse_stmt f').
Proof.
  induction f as [|f IH]; intros f' Hf; [intros self; left; reflexivity|].
  destruct f' as [|f']; [lia|]. simpl.
  apply parse_stmt_body_below; [apply IH|]; lia.
Qed.

Lemma parse_loop_below f f' :
  (f <= f')%nat ->
  forall n n', (n <= n')%nat -> forall stmts,
    below_M (parse_loop f n stmts) (parse_loop f' n' stmts).
Proof.
  intros Hf. induction n as [|n IH]; intros n' Hn stmts self.
  - simpl. destruct (pos self <? length (tokens self))%nat eqn:E;
      [left; reflexivity|].
    destruct n'; simpl; rewrite E; right; reflexivity.
  - destruct n' as [|n']; [lia|]. simpl.
    destruct (pos self <? length (tokens self))%nat; [|right; reflexivity].
    apply below_bind; [apply parse_stmt_below; exact Hf|].
    intros s0. apply IH. lia.
Qed.

(** Any fuel above the number of tokens gives the result of [parse]. *)
Lemma parse_fuel_irrelevant toks fuel :
  (length toks < fuel)%nat ->
  fst <$> parse_with fuel (init toks) = parse toks.
Proof.
  intros Hf. unfold parse, parse_with.
  pose proof (parse_total toks) as Ht. unfold parse, parse_with in Ht.
  destruct (parse_loop_below (S (length toks)) fuel ltac:(lia)
              (S (length toks)) fuel ltac:(lia) [] (init toks)) as [E | E].
  - rewrite E in Ht. contradiction.
  - rewrite E. reflexivity.
Qed.

End FuelIrrelevance.

(* ===================================================================== *)
(** * Facts about the interpreter *)
(* ===================================================================== *)

Section InterpreterFacts.
Import Interpreter.

Lemma clean_bind {A B} (m : Res A) (f : A -> Res B) :
  clean m -> (forall a, m = OK a -> clean (f a)) -> clean (m ≫= f).
Proof. destruct m; simpl; auto. Qed.

Lemma apply_clean op l r : clean (apply op l r).
Proof.
  destruct op, l as [a|a|a], r as [b|b|b]; simpl; try exact I;
    try reflexivity;
    try (destruct a; reflexivity); try (destruct b; reflexivity);
    try (destruct a, b; reflexivity).
  all: unfold Py.floordiv; simpl;
    match goal with |- context [Z.eqb ?x 0] => destruct (Z.eqb x 0) end;
    simpl; auto; reflexivity.
Qed.

Lemma eval_expr_clean self e : clean (eval_expr self e).
Proof.
  induction e as [n|s|x|op l IHl r IHr]; simpl; auto.
  apply clean_bind; [exact IHl|]. intros lv _.
  apply clean_bind; [exact IHr|]. intros rv _.
  apply apply_clean.
Qed.

(** The loop over the body of an [If] is the loop over a statement
    list. *)
Lemma eval_stmt_If c body self :
  eval_stmt (If c body) self
  = (v ← eval_expr self c;
     if Py.truthy v then eval_stmts body self else OK self).
Proof. reflexivity. Qed.

Lemma eval_stmts_clean_of body :
  Forall (fun s => forall self, clean (eval_stmt s self)) body ->
  forall self, clean (eval_stmts body self).
Proof.
  induction 1 as [|s body Hs _ IH]; intros self; simpl; auto.
  apply clean_bind; [apply Hs|]. intros self' _. apply IH.
Qed.

Lemma eval_stmt_clean s : forall self, clean (eval_stmt s self).
Proof.
  induction s as [e|c body IH|x e] using stmt_ind_nested; intros self.
  - simpl. apply clean_bind; [apply eval_expr_clean|]. intros; exact I.
  - rewrite eval_stmt_If.
    apply clean_bind; [apply eval_expr_clean|]. intros v _.
    destruct (Py.truthy v); [|exact I].
    apply eval_stmts_clean_of. exact IH.
  - simpl. apply clean_bind; [apply eval_expr_clean|]. intros; exact I.
Qed.

Lemma eval_stmts_clean body self : clean (eval_stmts body self).
Proof.
  apply eval_stmts_clean_of. apply Forall_forall.
  intros s _. apply eval_stmt_clean.
Qed.

Lemma run_clean ast self : clean (run ast self).
Proof.
  unfold run. apply clean_bind; [apply eval_stmts_clean|]. intros; exact I.
Qed.

Lemma eval_stmts_app l1 l2 self :
  eval_stmts (l1 ++ l2) self = (self' ← eval_stmts l1 self; eval_stmts l2 self').
Proof.
  revert self; induction l1 as [|s l1 IH]; intros self; simpl; [reflexivity|].
  destruct (eval_stmt s self); simpl; auto.
Qed.

End InterpreterFacts.

(* ===================================================================== *)
(** * Facts about the runner *)
(* ===================================================================== *)

Lemma pipeline_on_clean it code : clean (pipeline_on it code).
Proof.
  unfold pipeline_on. pose proof (parse_total (lex code)) as H.
  destruct (Parser.parse (lex code)) as [ast| |]; simpl; auto.
  apply run_clean.
Qed.

Lemma pipeline_clean code : clean (pipeline code).
Proof.
  unfold pipeline. pose proof (pipeline_on_clean Interpreter.init code) as H.
  destruct (pipeline_on Interpreter.init code); simpl; auto.
Qed.

(** [run_ezlang] always returns. *)
Lemma run_ezlang_returns code : is_Some (run_ezlang code).
Proof.
  unfold run_ezlang. pose proof (pipeline_clean code) as H.
  destruct (pipeline code); simpl in *; eauto. contradiction.
Qed.

Lemma run_ezlang_raise code e :
  pipeline code = Raise e -> run_ezlang code = Some ("Error: " +:+ exn_str e).
Proof. unfold run_ezlang. intros ->. reflexivity. Qed.

Lemma run_ezlang_ok code out :
  pipeline code = OK out -> run_ezlang code = Some out.
Proof. unfold run_ezlang. intros ->. reflexivity. Qed.

(* ===================================================================== *)
(** * The double equals sign *)
(* ===================================================================== *)

Lemma binop_of_text_Eq g : binop_of_text g = Some Eq -> g = "==".
Proof.
  unfold binop_of_text.
  repeat match goal with
         | |- context [String.eqb g ?w] =>
             destruct (String.eqb g w) eqn:?; [try discriminate|]
         end; try discriminate.
  intros _. apply String.eqb_eq. assumption.
Qed.

Lemma lex_never_compare_eq code : COMPARE Eq ∉ lex code.
Proof.
  unfold lex. rewrite list_elem_of_omap. intros (m & Hm & Hlex).
  apply scan_elem in Hm as (n & H1 & H2 & _).
  unfold lex_match in Hlex.
  destruct (Regex.lastgroup m) eqn:Ek; try discriminate.
  - destruct (binop_of_text (Regex.group m)); discriminate.
  - destruct (binop_of_text (Regex.group m)) as [o|] eqn:Eo; [|discriminate].
    injection Hlex as ->. apply binop_of_text_Eq in Eo.
    apply match_at_compare in H1.
    rewrite H2 in Eo.
    assert (Text.startswith "=" (Text.take n (Text.drop (Regex.m_start m - 0) code)) = true)
      as Hs by (rewrite Eo; reflexivity).
    apply startswith_take in Hs. congruence.
Qed.

(** C1.  The claim is that the two characters of a double equals sign lex as
    one COMPARE token and that the comparison evaluates to the equality of
    its operands.  The evaluator does its part ([apply Eq]), but the lexer
    never emits that token: ASSIGN is tried before COMPARE, so the text
    lexes as two ASSIGN tokens and a program that compares with it is
    rejected by the parser. *)
Theorem C1_double_equals_lexes_as_two_assigns :
  (forall code, COMPARE Eq ∉ lex code)
  /\ lex "a == b" = [IDENTIFIER "a"; ASSIGN; ASSIGN; IDENTIFIER "b"]
  /\ run_ezlang "print 1 == 1"
     = Some "Error: Invalid statement at token ('ASSIGN', '=')"
  /\ (forall l r, Interpreter.apply Eq l r = OK (VBool (Py.eq l r))).
Proof.
  split; [exact lex_never_compare_eq|].
  split; [vm_compute; reflexivity|].
  split; [vm_compute; reflexivity|].
  reflexivity.
Qed.

(* ===================================================================== *)
(** * Characters that match no pattern *)
(* ===================================================================== *)

(** C2, as stated, fails: after the first character that matches no pattern
    the text [1 @ 2] still yields the token of the 2. *)
Lemma C2_lexing_stops_counterexample :
  ~ (forall i, first_unmatched "1 @ 2" i ->
     forall m, m ∈ Regex.finditer "1 @ 2" -> is_Some (lex_match m) ->
               (Regex.m_start m < i)%nat).
Proof.
  intros H.
  specialize (H 2%nat).
  assert (first_unmatched "1 @ 2" 2) as H2.
  { split.
    - split; [simpl; lia|].
      vm_compute Regex.finditer.
      repeat constructor; unfold inside, Regex.m_end; simpl; lia.
    - intros j Hj [_ Hcov]. vm_compute Regex.finditer in Hcov.
      rewrite !Forall_cons in Hcov.
      unfold inside, Regex.m_end in Hcov. simpl in Hcov.
      assert (j = 0 \/ j = 1)%nat as [-> | ->] by lia; lia. }
  specialize (H H2 {| Regex.m_start := 4; Regex.lastgroup := K_NUMBER;
                      Regex.group := "2" |}).
  assert (4 < 2)%nat; [|lia].
  apply H.
  - vm_compute Regex.finditer. set_solver.
  - eexists; reflexivity.
Qed.

(** C2, amended.  A character that matches no pattern is skipped: the
    tokens returned are those of the matches before it followed by all the
    tokens of the text after it, lexed afresh.  ([lex] returns a list; it has
    no way to raise.) *)
Theorem C2_lexing_skips_unmatched code i :
  unmatched code i ->
  lex code
  = tokens_of
      (filter (fun m => (Regex.m_start m < i)%nat) (Regex.finditer code))
    ++ lex (Text.drop (S i) code).
Proof.
  intros [Hi Hcov]. unfold lex, Regex.finditer in *.
  rewrite (scan_split code O O i) at 1; [|lia|exact Hcov].
  rewrite omap_app. f_equal.
  apply (tokens_of_scan_offset _ O).
Qed.

(** The text [1 @ 2]: position 2 is unmatched, and the 2 after it is lexed. *)
Lemma C2_lexing_skips_unmatched_witness :
  unmatched "1 @ 2" 2
  /\ lex "1 @ 2" = [NUMBER 1] ++ lex " 2"
  /\ lex "1 @ 2" = [NUMBER 1; NUMBER 2].
Proof.
  assert (unmatched "1 @ 2" 2) as H.
  { split; [simpl; lia|].
    vm_compute Regex.finditer.
    repeat constructor; unfold inside, Regex.m_end; simpl; lia. }
  split; [exact H|]. split; [|vm_compute; reflexivity].
  rewrite (C2_lexing_skips_unmatched "1 @ 2" 2 H). reflexivity.
Defined.

(* ===================================================================== *)
(** * Operand kinds of the arithmetic operators *)
(* ===================================================================== *)

Section Arithmetic.
Import Interpreter.

Lemma eval_expr_binop self op l r lv rv :
  eval_expr self l = OK lv -> eval_expr self r = OK rv ->
  eval_expr self (BinaryOp op l r) = apply op lv rv.
Proof. intros Hl Hr. simpl. rewrite Hl, Hr. reflexivity. Qed.

(** C3, as stated, fails for [*]: an int times a str is the str
    repeated. *)
Lemma C3_mixed_operands_counterexample :
  ~ (exists e, eval_expr init
                 (BinaryOp Mul (IntLiteral 3) (StringLiteral "ab"))
               = Raise e)
  /\ run_ezlang ("print 3 * " +:+ Text.quoted "ab") = Some "ababab".
Proof.
  split; [|vm_compute; reflexivity].
  intros [e He]. vm_compute in He. discriminate.
Qed.

(** C3, amended.  With one Integer and one Text operand, in either order,
    [+], [-] and [/] raise a TypeError while [*] raises no TypeError: when
    the count and the length of the result fit an index of the host it
    yields the text repeated (empty when the count is not positive).  Two
    Integers are accepted by all four operators ([/] when the divisor is
    not zero); two Texts are accepted by [+] only, which concatenates, and
    [-], [*] and [/] raise a TypeError. *)
Theorem C3_operand_kinds self l r lv rv :
  eval_expr self l = OK lv -> eval_expr self r = OK rv ->
  (forall n s,
      (lv = VInt n /\ rv = VStr s) \/ (lv = VStr s /\ rv = VInt n) ->
      (fits_index n s ->
       eval_expr self (BinaryOp Mul l r)
       = OK (VStr (Text.repeat s (Z.to_nat n))))
      /\ (forall msg,
            eval_expr self (BinaryOp Mul l r) <> Raise (Exn TypeError msg))
      /\ forall op, op = Add \/ op = Sub \/ op = Div ->
           exists msg, eval_expr self (BinaryOp op l r)
                       = Raise (Exn TypeError msg))
  /\ (forall a b, lv = VInt a -> rv = VInt b ->
        eval_expr self (BinaryOp Add l r) = OK (VInt (a + b))
        /\ eval_expr self (BinaryOp Sub l r) = OK (VInt (a - b))
        /\ eval_expr self (BinaryOp Mul l r) = OK (VInt (a * b))
        /\ (b <> 0 -> eval_expr self (BinaryOp Div l r) = OK (VInt (a / b))))
  /\ (forall a b, lv = VStr a -> rv = VStr b ->
        eval_expr self (BinaryOp Add l r) = OK (VStr (a +:+ b))
        /\ forall op, op = Sub \/ op = Mul \/ op = Div ->
             exists msg, eval_expr self (BinaryOp op l r)
                         = Raise (Exn TypeError msg)).
Proof.
  intros Hl Hr. split; [|split].
  - intros n s [[-> ->] | [-> ->]];
      (split; [|split];
       [intros _; rewrite (eval_expr_binop _ _ _ _ _ _ Hl Hr); reflexivity
       |intros msg; rewrite (eval_expr_binop _ _ _ _ _ _ Hl Hr); discriminate
       |]);
      intros op [-> | [-> | ->]];
      rewrite (eval_expr_binop _ _ _ _ _ _ Hl Hr); eexists; reflexivity.
  - intros a b -> ->.
    rewrite !(eval_expr_binop _ _ _ _ _ _ Hl Hr).
    repeat split; try reflexivity.
    intros Hb. simpl. unfold Py.floordiv. simpl.
    destruct (Z.eqb_spec b 0); [contradiction | reflexivity].
  - intros a b -> ->. split.
    + rewrite (eval_expr_binop _ _ _ _ _ _ Hl Hr). reflexivity.
    + intros op [-> | [-> | ->]];
        rewrite (eval_expr_binop _ _ _ _ _ _ Hl Hr); eexists; reflexivity.
Qed.

(** An Integer 3 and a Text [ab]: the product is the text three times, the
    difference a TypeError. *)
Lemma C3_operand_kinds_witness :
  eval_expr init (BinaryOp Mul (IntLiteral 3) (StringLiteral "ab"))
  = OK (VStr "ababab")
  /\ exists msg,
       eval_expr init (BinaryOp Sub (IntLiteral 3) (StringLiteral "ab"))
       = Raise (Exn TypeError msg).
Proof.
  destruct (C3_operand_kinds init (IntLiteral 3) (StringLiteral "ab")
              (VInt 3) (VStr "ab") eq_refl eq_refl) as [H _].
  destruct (H 3 "ab" (or_introl (conj eq_refl eq_refl))) as (H1 & _ & H2).
  split; [apply H1; unfold fits_index, index_max; simpl; lia
         | apply H2; auto].
Defined.

(* ------------------------------------------------------------------- *)
(** ** Division *)

Lemma Qfloor_div a b : b <> 0 -> Qfloor (inject_Z a / inject_Z b) = a / b.
Proof.
  intros Hb. unfold Qdiv, Qinv, Qmult, inject_Z, Qfloor. simpl.
  destruct b as [|p|p]; simpl; [congruence| |].
  - rewrite Z.mul_1_r. reflexivity.
  - rewrite <- (Z.div_opp_opp a (Z.neg p)) by lia. simpl.
    f_equal. lia.
Qed.

(** C6, as stated, fails on its example: the language has no unary minus,
    so the program is rejected by the parser. *)
Lemma C6_negative_literal_counterexample :
  run_ezlang ("a = -7" +:+ nl +:+ "b = 2" +:+ nl +:+ "print a / b")
  <> Some "-4".
Proof. vm_compute. discriminate. Qed.

(** C6, amended.  For Integer operands [a] and [b] with [b] nonzero,
    [a / b] evaluates to the floor of the exact quotient; the program that
    computes minus seven as [0 - 7] and divides it by two prints -4. *)
Theorem C6_division_floors self l r a b :
  eval_expr self l = OK (VInt a) -> eval_expr self r = OK (VInt b) ->
  b <> 0 ->
  eval_expr self (BinaryOp Div l r)
  = OK (VInt (Qfloor (inject_Z a / inject_Z b)))
  /\ run_ezlang ("a = 0 - 7" +:+ nl +:+ "b = 2" +:+ nl +:+ "print a / b")
     = Some "-4".
Proof.
  intros Hl Hr Hb. split; [|vm_compute; reflexivity].
  rewrite (eval_expr_binop _ _ _ _ _ _ Hl Hr), Qfloor_div by exact Hb.
  simpl. unfold Py.floordiv. simpl.
  destruct (Z.eqb_spec b 0); [contradiction | reflexivity].
Qed.

(** Minus seven, computed as [0 - 7], divided by two. *)
Lemma C6_division_floors_witness :
  eval_expr init (BinaryOp Div (BinaryOp Sub (IntLiteral 0) (IntLiteral 7))
                    (IntLiteral 2))
  = OK (VInt (-4)).
Proof.
  refine (proj1 (C6_division_floors init
                   (BinaryOp Sub (IntLiteral 0) (IntLiteral 7))
                   (IntLiteral 2) (-7) 2 eq_refl eq_refl _)).
  discriminate.
Defined.

(* ------------------------------------------------------------------- *)
(** ** Unbound variables *)

(** C8.  Reading a name that is not bound yields Integer 0 and does not
    fail; the program that prints an unbound [y] prints 0. *)
Theorem C8_unbound_variable_is_zero self name :
  vars self !! name = None ->
  eval_expr self (VarRef name) = OK (VInt 0)
  /\ run_ezlang "print y" = Some "0".
Proof.
  intros H. split; [|vm_compute; reflexivity].
  simpl. unfold vars_get. rewrite H. reflexivity.
Qed.

(** Reading [y] where only [x] is bound. *)
Lemma C8_unbound_variable_is_zero_witness :
  eval_expr (set_var init "x" (VInt 5)) (VarRef "y") = OK (VInt 0).
Proof.
  refine (proj1 (C8_unbound_variable_is_zero
                   (set_var init "x" (VInt 5)) "y" _)).
  vm_compute. reflexivity.
Defined.

End Arithmetic.

(* ===================================================================== *)
(** * The entry point *)
(* ===================================================================== *)

Section EntryPoint.
Import Interpreter.

Lemma pipeline_on_output it code out it' :
  pipeline_on it code = OK (out, it') ->
  out = Text.join nl (output it').
Proof.
  unfold pipeline_on, run.
  destruct (Parser.parse (lex code)) as [ast| |]; simpl; try discriminate.
  destruct (eval_stmts ast _) as [self'| |]; simpl; try discriminate.
  intros [= <- <-]. reflexivity.
Qed.

(** C4.  For every input the entry point returns a string: the output
    buffer joined with line feeds, or the text [Error: ] followed by the
    message of the exception raised.  Nothing escapes the [try]. *)
Theorem C4_run_ezlang_always_returns_a_string code :
  exists res,
    run_ezlang code = Some res
    /\ ((exists it, pipeline_on init code = OK (res, it)
                    /\ res = Text.join nl (output it))
        \/ (exists e, pipeline code = Raise e
                      /\ res = "Error: " +:+ exn_str e
                      /\ Text.startswith "Error: " res = true)).
Proof.
  destruct (run_ezlang_returns code) as [res Hres]. exists res.
  split; [exact Hres|]. revert Hres. unfold run_ezlang, pipeline.
  destruct (pipeline_on init code) as [[out it]| |] eqn:E; simpl;
    intros [= <-].
  - left. exists it. split; [reflexivity|].
    eapply pipeline_on_output; eassumption.
  - right. exists e. repeat split; reflexivity.
Qed.

(** What the [try] block does when the parse succeeded. *)
Lemma pipeline_parsed code ast :
  Parser.parse (lex code) = OK ast ->
  pipeline code
  = (self' ← eval_stmts ast init; OK (Text.join nl (output self'))).
Proof.
  intros H. unfold pipeline, pipeline_on, run, init. rewrite H. simpl.
  destruct (eval_stmts ast _); reflexivity.
Qed.

Lemma pipeline_parse_raise code e :
  Parser.parse (lex code) = Raise e -> pipeline code = Raise e.
Proof. intros H. unfold pipeline, pipeline_on. rewrite H. reflexivity. Qed.

(** A loop over statements that raises does so at one statement, those
    before it having completed. *)
Lemma eval_stmts_raise_inv l : forall self e,
  eval_stmts l self = Raise e ->
  exists done s rest it,
    l = done ++ s :: rest
    /\ eval_stmts done self = OK it
    /\ eval_stmt s it = Raise e.
Proof.
  induction l as [|s0 l IH]; intros self e H; simpl in H; [discriminate|].
  destruct (eval_stmt s0 self) as [self'| |] eqn:E0; simpl in H;
    try discriminate.
  - destruct (IH _ _ H) as (done & s & rest & it & -> & Hdone & Hs).
    exists (s0 :: done), s, rest, it. repeat split; auto.
    simpl. rewrite E0. exact Hdone.
  - injection H as ->. exists [], s0, l, self. repeat split; auto.
Qed.

(** C5.  When a run fails, the string returned is the error line alone:
    [Error: ] and the message of the exception, on one line.  The failure
    is raised by the parser, or by a statement [s] reached in a state [it]
    after the statements before it completed; what those printed is in the
    buffer of [it] and is not in the string returned. *)
Theorem C5_failure_discards_output code e :
  pipeline code = Raise e ->
  run_ezlang code = Some ("Error: " +:+ exn_str e)
  /\ one_line ("Error: " +:+ exn_str e)
  /\ (Parser.parse (lex code) = Raise e
      \/ exists done s rest it,
           Parser.parse (lex code) = OK (done ++ s :: rest)
           /\ eval_stmts done init = OK it
           /\ eval_stmt s it = Raise e).
Proof.
  intros Hp. split; [apply run_ezlang_raise; exact Hp|]. split.
  - apply one_line_app; [reflexivity|].
    pose proof (pipeline_clean code) as Hc. rewrite Hp in Hc. exact Hc.
  - pose proof (parse_total (lex code)) as Ht.
    destruct (Parser.parse (lex code)) as [ast|e'|] eqn:E; [| |contradiction].
    + right. rewrite (pipeline_parsed _ _ E) in Hp.
      destruct (eval_stmts ast init) as [self'| |] eqn:Er; simpl in Hp;
        try discriminate.
      injection Hp as ->.
      destruct (eval_stmts_raise_inv _ _ _ Er)
        as (done & s & rest & it & -> & Hdone & Hs).
      exists done, s, rest, it. auto.
    + left. rewrite (pipeline_parse_raise _ _ E) in Hp.
      injection Hp as ->. reflexivity.
Qed.

(** A program that prints a line and then divides by zero. *)
Lemma C5_failure_discards_output_witness :
  pipeline ("print 1" +:+ nl +:+ "print 1 / 0")
  = Raise (Exn ZeroDivisionError "integer division or modulo by zero")
  /\ run_ezlang ("print 1" +:+ nl +:+ "print 1 / 0")
     = Some "Error: integer division or modulo by zero".
Proof.
  assert (pipeline ("print 1" +:+ nl +:+ "print 1 / 0")
          = Raise (Exn ZeroDivisionError "integer division or modulo by zero"))
    as H by (vm_compute; reflexivity).
  split; [exact H|].
  exact (proj1 (C5_failure_discards_output _ _ H)).
Defined.

(* ------------------------------------------------------------------- *)
(** ** Division by zero *)

Lemma subexpr_raise self sub e x :
  subexpr sub e -> eval_expr self sub = Raise x ->
  exists x', eval_expr self e = Raise x'.
Proof.
  induction 1 as [|op l r _ IH|op l r _ IH]; intros Hx.
  - eauto.
  - destruct (IH Hx) as [x' Hx']. exists x'. simpl. rewrite Hx'. reflexivity.
  - destruct (IH Hx) as [x' Hx']. simpl. rewrite Hx'.
    pose proof (eval_expr_clean self l) as Hc.
    destruct (eval_expr self l); simpl in *; eauto. contradiction.
Qed.

Lemma stmt_expr_raise s self x :
  eval_expr self (stmt_expr s) = Raise x -> eval_stmt s self = Raise x.
Proof.
  destruct s as [e|c body|v e]; intros H.
  - simpl in *. rewrite H. reflexivity.
  - rewrite eval_stmt_If. simpl in H. rewrite H. reflexivity.
  - simpl in *. rewrite H. reflexivity.
Qed.

Lemma reaches_raise l it0 s it e :
  reaches l it0 s it -> eval_stmt s it = Raise e ->
  eval_stmts l it0 = Raise e.
Proof.
  induction 1 as [s rest it|s0 rest it0 it1 s it H0 _ IH
                  |c body rest it0 v s it Hc Hv _ IH]; intros He.
  - simpl. rewrite He. reflexivity.
  - simpl. rewrite H0. simpl. auto.
  - change (eval_stmts (If c body :: rest) it0)
      with (self' ← eval_stmt (If c body) it0; eval_stmts rest self').
    rewrite eval_stmt_If, Hc. simpl. rewrite Hv, (IH He). reflexivity.
Qed.

(** C7.  Whenever a run comes to a statement whose expression holds a
    division with a right operand that evaluates to Integer 0, the
    division raises, the run fails, and the entry point returns an error
    line. *)
Theorem C7_division_by_zero_is_reported code ast s it l r lv :
  Parser.parse (lex code) = OK ast ->
  reaches ast init s it ->
  subexpr (BinaryOp Div l r) (stmt_expr s) ->
  eval_expr it l = OK lv ->
  eval_expr it r = OK (VInt 0) ->
  (exists e0, eval_expr it (BinaryOp Div l r) = Raise e0)
  /\ exists e, pipeline code = Raise e
               /\ run_ezlang code = Some ("Error: " +:+ exn_str e).
Proof.
  intros Hparse Hreach Hsub Hl Hr.
  assert (exists e0, eval_expr it (BinaryOp Div l r) = Raise e0) as [e0 He0].
  { rewrite (eval_expr_binop _ _ _ _ _ _ Hl Hr). simpl.
    destruct lv; eexists; reflexivity. }
  split; [eauto|].
  destruct (subexpr_raise _ _ _ _ Hsub He0) as [e He].
  apply stmt_expr_raise in He.
  pose proof (reaches_raise _ _ _ _ _ Hreach He) as Hrun.
  exists e. assert (pipeline code = Raise e) as Hp.
  { rewrite (pipeline_parsed _ _ Hparse), Hrun. reflexivity. }
  split; [exact Hp | apply run_ezlang_raise; exact Hp].
Qed.

(** The program that assigns 1 and 0 and prints their quotient. *)
Lemma C7_division_by_zero_is_reported_witness :
  exists e, pipeline ("a = 1" +:+ nl +:+ "b = 0" +:+ nl +:+ "print a / b")
            = Raise e
            /\ run_ezlang ("a = 1" +:+ nl +:+ "b = 0" +:+ nl +:+ "print a / b")
               = Some ("Error: " +:+ exn_str e).
Proof.
  refine (proj2 (C7_division_by_zero_is_reported
                   ("a = 1" +:+ nl +:+ "b = 0" +:+ nl +:+ "print a / b")
                   [Assign "a" (IntLiteral 1); Assign "b" (IntLiteral 0);
                    Print (BinaryOp Div (VarRef "a") (VarRef "b"))]
                   (Print (BinaryOp Div (VarRef "a") (VarRef "b")))
                   (set_var (set_var init "a" (VInt 1)) "b" (VInt 0))
                   (VarRef "a") (VarRef "b") (VInt 1) _ _ _ _ _)).
  - vm_compute. reflexivity.
  - eapply reaches_next; [reflexivity|].
    eapply reaches_next; [reflexivity|].
    apply reaches_here.
  - apply subexpr_here.
  - vm_compute. reflexivity.
  - vm_compute. reflexivity.
Defined.

(* ------------------------------------------------------------------- *)
(** ** Successive runs *)

Lemma invoke_fst code w : fst (invoke code w) = run_ezlang code.
Proof.
  unfold invoke, run_ezlang, pipeline.
  destruct (pipeline_on init code) as [[out it]| |]; reflexivity.
Qed.

(** C9.  Two successive invocations on the same text return the same
    string, whatever earlier runs left behind: each run evaluates in an
    interpreter whose variable store and output buffer are empty. *)
Theorem C9_successive_runs_agree code w :
  fst (invoke code (snd (invoke code w))) = fst (invoke code w)
  /\ fst (invoke code w)
     = match pipeline_on {| vars := ∅; output := [] |} code with
       | OK (out, _) => Some out
       | Raise e => Some ("Error: " +:+ exn_str e)
       | Fuel => None
       end.
Proof.
  rewrite !invoke_fst. split; [reflexivity|].
  unfold run_ezlang, pipeline. change {| vars := ∅; output := [] |} with init.
  destruct (pipeline_on init code) as [[out it]| |]; reflexivity.
Qed.

(** The same text run in the interpreter an earlier run left behind would
    see its variables. *)
Example reused_interpreter_differs :
  let code := "print x x = x + 1" in
  exists out it, pipeline_on init code = OK (out, it)
                 /\ pipeline_on it code <> pipeline_on init code.
Proof.
  eexists _, _. split; [vm_compute; reflexivity|]. vm_compute. discriminate.
Qed.

End EntryPoint.

(* ===================================================================== *)
(** * Keywords *)
(* ===================================================================== *)

Section Keywords.
Import Text Regex.

Lemma lex_identifier_not_keyword code x :
  IDENTIFIER x ∈ lex code ->
  startswith "print" x = false /\ startswith "if" x = false.
Proof.
  unfold lex. rewrite list_elem_of_omap. intros (m & Hm & Hlex).
  apply scan_elem in Hm as (n & H1 & H2 & _).
  unfold lex_match in Hlex.
  destruct (lastgroup m) eqn:Ek; try discriminate;
    try (destruct (binop_of_text (group m)); discriminate).
  injection Hlex as <-.
  apply match_at_identifier in H1 as [Hp Hi]. rewrite H2. split.
  - destruct (startswith "print" (take n _)) eqn:E; [|reflexivity].
    apply startswith_take in E. congruence.
  - destruct (startswith "if" (take n _)) eqn:E; [|reflexivity].
    apply startswith_take in E. congruence.
Qed.

Lemma lex_scan code : lex code = tokens_of (scan O O code).
Proof. reflexivity. Qed.

Lemma scan_match c r k n pos :
  match_at (String c r) = Some (k, n) ->
  scan O pos (String c r)
  = {| m_start := pos; lastgroup := k; group := take n (String c r) |}
      :: scan (Nat.pred n) (S pos) r.
Proof. intros E. cbn [scan]. rewrite E. reflexivity. Qed.

Lemma scan_print pos rest :
  scan O pos ("print" +:+ rest)
  = {| m_start := pos; lastgroup := K_PRINT; group := "print" |}
      :: scan O (pos + 5) rest.
Proof.
  change ("print" +:+ rest) with (String "p" ("rint" +:+ rest)).
  rewrite (scan_match "p" ("rint" +:+ rest) K_PRINT 5 pos) by reflexivity.
  replace (pos + 5)%nat with (S (S (S (S (S pos))))) by lia. reflexivity.
Qed.

Lemma scan_if pos rest :
  scan O pos ("if" +:+ rest)
  = {| m_start := pos; lastgroup := K_IF; group := "if" |}
      :: scan O (pos + 2) rest.
Proof.
  change ("if" +:+ rest) with (String "i" ("f" +:+ rest)).
  rewrite (scan_match "i" ("f" +:+ rest) K_IF 2 pos) by reflexivity.
  replace (pos + 2)%nat with (S (S pos)) by lia. reflexivity.
Qed.

Lemma lex_print rest : lex ("print" +:+ rest) = PRINT :: lex rest.
Proof.
  rewrite !lex_scan, scan_print.
  change (PRINT :: tokens_of (scan O 5 rest) = PRINT :: tokens_of (scan O O rest)).
  f_equal. apply tokens_of_scan_offset.
Qed.

Lemma lex_if rest : lex ("if" +:+ rest) = IF :: lex rest.
Proof.
  rewrite !lex_scan, scan_if.
  change (IF :: tokens_of (scan O 2 rest) = IF :: tokens_of (scan O O rest)).
  f_equal. apply tokens_of_scan_offset.
Qed.

(** C10, as stated, fails: the letters after a keyword are lexed by the
    same rules, so they can be a keyword again and not an IDENTIFIER. *)
Lemma C10_keyword_prefix_counterexample :
  lex "ifif" <> [IF; IDENTIFIER "if"] /\ lex "ifif" = [IF; IF].
Proof. split; [vm_compute; discriminate | vm_compute; reflexivity]. Qed.

(** C10, amended.  Where the scan, at any offset, meets [print] or [if] it
    emits the keyword token and scans what follows by the same rules; an
    IDENTIFIER token never has a spelling that starts with [print] or [if].
    So [ifx] is IF then IDENTIFIER x. *)
Theorem C10_identifiers_never_start_with_a_keyword :
  (forall code x, IDENTIFIER x ∈ lex code ->
                  startswith "print" x = false /\ startswith "if" x = false)
  /\ (forall pos rest,
        scan O pos ("print" +:+ rest)
        = {| m_start := pos; lastgroup := K_PRINT; group := "print" |}
            :: scan O (pos + 5) rest)
  /\ (forall pos rest,
        scan O pos ("if" +:+ rest)
        = {| m_start := pos; lastgroup := K_IF; group := "if" |}
            :: scan O (pos + 2) rest)
  /\ (forall rest, lex ("print" +:+ rest) = PRINT :: lex rest)
  /\ (forall rest, lex ("if" +:+ rest) = IF :: lex rest)
  /\ lex "ifx" = [IF; IDENTIFIER "x"]
  /\ lex "printx" = [PRINT; IDENTIFIER "x"].
Proof.
  split; [exact lex_identifier_not_keyword|].
  split; [exact scan_print|]. split; [exact scan_if|].
  split; [exact lex_print|]. split; [exact lex_if|].
  split; vm_compute; reflexivity.
Qed.

End Keywords.

(* ===================================================================== *)
(** * The sample programs *)
(* ===================================================================== *)

Example run_hello :
  run_ezlang ("print " +:+ Text.quoted "Hello, World!") = Some "Hello, World!".
Proof. vm_compute. reflexivity. Qed.

Example run_variables :
  run_ezlang ("x = 10" +:+ nl +:+ "print x" +:+ nl +:+ "x = x + 5" +:+ nl
              +:+ "print x")
  = Some ("10" +:+ nl +:+ "15").
Proof. vm_compute. reflexivity. Qed.

Example run_if_taken :
  run_ezlang ("x = 10" +:+ nl +:+ "if x > 5 {" +:+ nl +:+ "  print "
              +:+ Text.quoted "x is greater than 5" +:+ nl +:+ "}")
  = Some "x is greater than 5".
Proof. vm_compute. reflexivity. Qed.

Example run_if_not_taken :
  run_ezlang ("x = 3" +:+ nl +:+ "if x > 5 {" +:+ nl +:+ "  print "
              +:+ Text.quoted "no" +:+ nl +:+ "}")
  = Some EmptyString.
Proof. vm_compute. reflexivity. Qed.

Example run_math :
  run_ezlang ("a = 10" +:+ nl +:+ "b = 5" +:+ nl +:+ "print a + b" +:+ nl
              +:+ "print a - b" +:+ nl +:+ "print a * b" +:+ nl
              +:+ "print a / b")
  = Some ("15" +:+ nl +:+ "5" +:+ nl +:+ "50" +:+ nl +:+ "2").
Proof. vm_compute. reflexivity. Qed.

Example run_mixed_add :
  run_ezlang ("print 1 + " +:+ Text.quoted "a")
  = Some "Error: unsupported operand type(s) for +: 'int' and 'str'".
Proof. vm_compute. reflexivity. Qed.

Example run_division_by_zero :
  run_ezlang ("a = 1" +:+ nl +:+ "b = 0" +:+ nl +:+ "print a / b")
  = Some "Error: integer division or modulo by zero".
Proof. vm_compute. reflexivity. Qed.

Example run_unterminated :
  run_ezlang "print" = Some "Error: list index out of range".
Proof. vm_compute. reflexivity. Qed.

(* ===================================================================== *)
(** * What the lexer emits *)
(* ===================================================================== *)

Section LexerShape.
Import Text Regex.

Lemma all_chars_take_span p s : all_chars p (take (span p s) s) = true.
Proof.
  induction s as [|c s IH]; simpl; [reflexivity|].
  destruct (p c) eqn:E; simpl; [rewrite E, IH|]; reflexivity.
Qed.

Lemma take_take_le n m s : (n <= m)%nat -> take n (take m s) = take n s.
Proof.
  revert m s; induction n as [|n IH]; intros m s H; [destruct m, s; reflexivity|].
  destruct m as [|m]; [lia|]. destruct s as [|c s]; simpl; [reflexivity|].
  f_equal. apply IH. lia.
Qed.

Ltac walk H :=
  repeat (apply tried_cons_inv in H;
          destruct H as [[? ?] | [? H]]; [try discriminate | ]);
  try (apply tried_nil_inv in H; destruct H).

Lemma match_at_number s n :
  match_at s = Some (K_NUMBER, n) -> n = span is_digit s /\ n <> O.
Proof.
  intros H. apply first_match_tried in H. unfold token_specs in H.
  walk H; try discriminate.
  match goal with E : plus _ _ = Some _ |- _ => rename E into Hp end.
  unfold plus in Hp. destruct (span is_digit s) eqn:E; [discriminate|].
  injection Hp as <-. split; [reflexivity | discriminate].
Qed.

Lemma match_at_string s n :
  match_at s = Some (K_STRING, n) -> string_lit s = Some n.
Proof.
  intros H. apply first_match_tried in H. unfold token_specs in H.
  walk H; try discriminate. assumption.
Qed.

Lemma match_at_identifier_span s n :
  match_at s = Some (K_IDENTIFIER, n) -> n = span is_ident_char s /\ n <> O.
Proof.
  intros H. apply first_match_tried in H. unfold token_specs in H.
  walk H; try discriminate.
  match goal with E : plus is_ident_char _ = Some _ |- _ => rename E into Hp end.
  unfold plus in Hp. destruct (span is_ident_char s) eqn:E; [discriminate|].
  injection Hp as <-. split; [reflexivity | discriminate].
Qed.

(** The token appended for a match tells the group that matched. *)
Lemma lex_match_kind m tk :
  lex_match m = Some tk -> lastgroup m = tok_kind tk.
Proof.
  unfold lex_match. destruct (lastgroup m); try (intros [= <-]; reflexivity);
    try discriminate;
    destruct (binop_of_text (group m)); simpl; try discriminate;
    intros [= <-]; reflexivity.
Qed.

Lemma lex_elem code tk :
  tk ∈ lex code ->
  exists suf n g,
    match_at suf = Some (tok_kind tk, n) /\ g = take n suf
    /\ lex_match {| m_start := O; lastgroup := tok_kind tk; group := g |}
       = Some tk.
Proof.
  unfold lex. rewrite list_elem_of_omap. intros (m & Hm & Hlex).
  apply scan_elem in Hm as (n & H1 & H2 & _).
  pose proof (lex_match_kind _ _ Hlex) as Hk. rewrite Hk in H1.
  exists (drop (m_start m - 0) code), n, (group m).
  repeat split; auto.
  unfold lex_match in *. simpl. rewrite <- Hk. exact Hlex.
Qed.

Lemma int_acc_nonneg s : forall acc,
  all_chars is_digit s = true -> 0 <= acc -> 0 <= int_acc acc s.
Proof.
  induction s as [|c s IH]; intros acc Hd Ha; simpl in *; [exact Ha|].
  apply andb_true_iff in Hd as [Hc Hs]. apply IH; [exact Hs|].
  unfold is_digit, between in Hc. apply andb_true_iff in Hc as [H1 H2].
  apply Nat.leb_le in H1, H2. unfold digit_val. lia.
Qed.

(** X1.  A NUMBER token never carries a negative value. *)
Theorem lex_number_nonnegative code n :
  NUMBER n ∈ lex code -> 0 <= n.
Proof.
  intros H. apply lex_elem in H as (suf & k & g & Hm & -> & Hlex).
  simpl in Hm, Hlex. injection Hlex as <-.
  apply match_at_number in Hm as [-> _].
  apply int_acc_nonneg; [apply all_chars_take_span | lia].
Qed.

Lemma lex_number_nonnegative_witness : 0 <= 7.
Proof.
  apply (lex_number_nonnegative "x = 007" 7). vm_compute. repeat constructor.
Defined.

Lemma mem_take_span_not c p s :
  p c = false -> mem c (take (span p s) s) = false.
Proof.
  intros Hc. induction s as [|a s IH]; simpl; [reflexivity|].
  destruct (p a) eqn:E; simpl; [|reflexivity]. rewrite IH, orb_false_r.
  apply Ascii.eqb_neq. intros ->. congruence.
Qed.

(** X2.  The value of a STRING token holds no double quote: a string
    literal cannot contain one, there is no escape. *)
Theorem lex_string_has_no_quote code s :
  STRING s ∈ lex code -> mem dquote s = false.
Proof.
  intros H. apply lex_elem in H as (suf & k & g & Hm & -> & Hlex).
  simpl in Hm, Hlex. injection Hlex as <-.
  apply match_at_string in Hm. destruct suf as [|c r]; [discriminate|].
  simpl in Hm. destruct (Ascii.eqb c dquote); [|discriminate].
  pose proof (length_drop (span not_dquote r) r) as Hl.
  destruct (drop (span not_dquote r) r) eqn:E; [discriminate|].
  injection Hm as <-. simpl in Hl.
  change (take (S (S (span not_dquote r))) (String c r))
    with (String c (take (S (span not_dquote r)) r)).
  cbn [String.length]. rewrite length_take.
  replace (S (Nat.min (S (span not_dquote r)) (String.length r)) - 2)%nat
    with (span not_dquote r) by lia.
  rewrite take_take_le by lia.
  apply mem_take_span_not. reflexivity.
Qed.

Lemma lex_string_has_no_quote_witness : mem dquote "a b" = false.
Proof.
  apply (lex_string_has_no_quote ("print " +:+ quoted "a b") "a b").
  vm_compute. repeat constructor.
Defined.

(** X3.  The spelling of an IDENTIFIER token is not empty and is made of
    ASCII letters and underscores only. *)
Theorem lex_identifier_shape code x :
  IDENTIFIER x ∈ lex code ->
  x <> EmptyString /\ all_chars is_ident_char x = true.
Proof.
  intros H. apply lex_elem in H as (suf & k & g & Hm & -> & Hlex).
  simpl in Hm, Hlex. injection Hlex as <-.
  apply match_at_identifier_span in Hm as [-> Hn]. split.
  - destruct suf as [|c r]; [contradiction|]. simpl in *.
    destruct (is_ident_char c); [discriminate | contradiction].
  - apply all_chars_take_span.
Qed.

Lemma lex_identifier_shape_witness :
  "total_x" <> EmptyString /\ all_chars is_ident_char "total_x" = true.
Proof.
  apply (lex_identifier_shape "total_x = 1" "total_x").
  vm_compute. repeat constructor.
Defined.

Lemma scan_length s : forall skip pos,
  (length (scan skip pos s) <= String.length s)%nat.
Proof.
  induction s as [|c r IH]; intros skip pos; [simpl; lia|].
  cbn [scan String.length].
  destruct skip as [|k]; [|specialize (IH k (S pos)); lia].
  destruct (match_at (String c r)) as [[kd n]|].
  - specialize (IH (Nat.pred n) (S pos)). cbn [length]. lia.
  - specialize (IH O (S pos)). lia.
Qed.

Lemma omap_length {A B} (f : A -> option B) l :
  (length (omap f l) <= length l)%nat.
Proof.
  induction l as [|x l IH]; [simpl; lia|].
  cbn [omap list_omap length]. fold (omap f l).
  destruct (f x); cbn [length]; lia.
Qed.

(** X4.  There are never more tokens than characters. *)
Theorem lex_length_bound code :
  (length (lex code) <= String.length code)%nat.
Proof.
  unfold lex, finditer.
  etransitivity; [apply omap_length | apply scan_length].
Qed.

Lemma match_at_space c r :
  is_space c = true ->
  match_at (String c r) = Some (K_SKIP, S (span is_space r)).
Proof.
  unfold is_space. rewrite !orb_true_iff, !Ascii.eqb_eq.
  intros [[-> | ->] | ->]; reflexivity.
Qed.

Lemma tokens_of_skip pos g l :
  tokens_of ({| m_start := pos; lastgroup := K_SKIP; group := g |} :: l)
  = tokens_of l.
Proof. reflexivity. Qed.

(** Inside a run of white space it does not matter where the scan stands. *)
Lemma scan_within_space r : forall k pos,
  (k <= span is_space r)%nat ->
  tokens_of (scan k pos r) = tokens_of (scan (span is_space r) pos r).
Proof.
  induction r as [|c r IH]; intros k pos Hk; [reflexivity|].
  cbn [span] in *. destruct (is_space c) eqn:Ec.
  - destruct k as [|k].
    + rewrite (scan_match c r K_SKIP (S (span is_space r)) pos)
        by (apply match_at_space; exact Ec).
      rewrite tokens_of_skip. reflexivity.
    + cbn [scan]. apply IH. lia.
  - replace k with O by lia. reflexivity.
Qed.

Lemma lex_space_char c rest : is_space c = true -> lex (String c rest) = lex rest.
Proof.
  intros Hc. rewrite !lex_scan.
  rewrite (scan_match c rest K_SKIP (S (span is_space rest)) O)
    by (apply match_at_space; exact Hc).
  rewrite tokens_of_skip. cbn [Nat.pred].
  rewrite (scan_within_space rest O O) by lia.
  apply tokens_of_scan_offset.
Qed.

(** X5.  White space at the head of a text changes nothing: the tokens are
    those of the rest. *)
Theorem lex_ignores_leading_space ws rest :
  all_chars is_space ws = true -> lex (ws +:+ rest) = lex rest.
Proof.
  induction ws as [|c ws IH]; cbn [String.append all_chars]; intros H;
    [reflexivity|].
  apply andb_true_iff in H as [Hc Hw].
  change (String c ws +:+ rest) with (String c (ws +:+ rest)).
  rewrite lex_space_char by exact Hc. apply IH. exact Hw.
Qed.

Lemma lex_ignores_leading_space_witness :
  lex ("  " +:+ nl +:+ "x = 1") = lex "x = 1".
Proof.
  apply (lex_ignores_leading_space ("  " +:+ nl) "x = 1"). reflexivity.
Defined.

(** X6.  A text of spaces, tabs and line feeds only (the empty text
    included) has no token and runs to the empty string. *)
Theorem run_blank_text code :
  all_chars is_space code = true ->
  lex code = [] /\ run_ezlang code = Some EmptyString.
Proof.
  intros H.
  assert (lex code = []) as Hl.
  { induction code as [|c r IH]; [reflexivity|].
    cbn [all_chars] in H. apply andb_true_iff in H as [Hc Hr].
    rewrite lex_space_char by exact Hc. apply IH, Hr. }
  split; [exact Hl|].
  unfold run_ezlang, pipeline, pipeline_on. rewrite Hl. reflexivity.
Qed.

Lemma run_blank_text_witness :
  run_ezlang (" " +:+ nl +:+ "  ") = Some EmptyString.
Proof.
  refine (proj2 (run_blank_text (" " +:+ nl +:+ "  ") _)). reflexivity.
Defined.

(* --------------------------------------------------------------------- *)
(** ** Numbers *)

Ltac eval_digit :=
  unfold digit_val;
  repeat match goal with
    | |- context [Z.of_nat (code_of ?c)] =>
        let v := eval vm_compute in (Z.of_nat (code_of c)) in
        change (Z.of_nat (code_of c)) with v
    end.

Lemma int_acc_uint d : forall acc,
  int_acc (Zpos acc) (NilEmpty.string_of_uint d) = Zpos (Pos.of_uint_acc d acc).
Proof.
  induction d; intros acc; simpl; try reflexivity;
    rewrite <- IHd; f_equal; eval_digit; lia.
Qed.

Lemma int_uint d :
  int_acc 0 (NilEmpty.string_of_uint d) = Z.of_N (Pos.of_uint d).
Proof.
  induction d; simpl; try reflexivity; eval_digit;
    try exact IHd; rewrite <- int_acc_uint; reflexivity.
Qed.

(** [int(str(n))] is [n]. *)
Lemma int_str_int n : 0 <= n -> int (str_int n) = n.
Proof.
  intros Hn. unfold int, str_int.
  destruct n as [|p|p]; [reflexivity| |lia].
  simpl. unfold NilZero.string_of_uint.
  pose proof (DecimalPos.Unsigned.of_to p) as H.
  destruct (Pos.to_uint p) eqn:E; try (rewrite int_uint, H; reflexivity).
  simpl in H. discriminate.
Qed.

Lemma digits_uint d : all_chars is_digit (NilEmpty.string_of_uint d) = true.
Proof. induction d; simpl; auto. Qed.

Lemma str_int_digits n :
  0 <= n -> all_chars is_digit (str_int n) = true /\ str_int n <> EmptyString.
Proof.
  intros Hn. unfold str_int. destruct n as [|p|p]; [split; [reflexivity|discriminate]| |lia].
  simpl. unfold NilZero.string_of_uint.
  pose proof (DecimalPos.Unsigned.of_to p) as H.
  destruct (Pos.to_uint p) eqn:E; [simpl in H; discriminate|..];
    (split; [apply digits_uint | discriminate]).
Qed.

Lemma span_all p s : all_chars p s = true -> span p s = String.length s.
Proof.
  induction s as [|c s IH]; simpl; [reflexivity|].
  intros H. apply andb_true_iff in H as [-> Hs]. rewrite IH by exact Hs.
  reflexivity.
Qed.

Lemma scan_past_end r : forall k pos,
  (String.length r <= k)%nat -> scan k pos r = [].
Proof.
  induction r as [|c r IH]; intros k pos H; [reflexivity|].
  simpl in H. destruct k as [|k]; [lia|]. cbn [scan]. apply IH. lia.
Qed.

Lemma match_at_digits s :
  s <> EmptyString -> all_chars is_digit s = true ->
  match_at s = Some (K_NUMBER, String.length s).
Proof.
  intros Hs Hd. unfold match_at, token_specs. cbn [first_match].
  unfold plus. rewrite (span_all _ _ Hd).
  destruct s; [contradiction | reflexivity].
Qed.

(** A run of digits on its own is one NUMBER token. *)
Lemma lex_digits s :
  s <> EmptyString -> all_chars is_digit s = true ->
  lex s = [NUMBER (int s)].
Proof.
  intros Hs Hd. rewrite lex_scan.
  pose proof (match_at_digits s Hs Hd) as Hm.
  destruct s as [|c r]; [contradiction|].
  rewrite (scan_match _ _ _ _ O Hm).
  rewrite scan_past_end by (simpl; lia).
  unfold tokens_of. cbn [omap list_omap]. unfold lex_match. cbn [lastgroup group].
  rewrite take_length_ge by lia. reflexivity.
Qed.

(** X7.  The decimal text that [print] writes for a non-negative integer
    of at most [max_str_digits] digits lexes back to the NUMBER token of
    that integer. *)
Theorem lex_of_printed_number n :
  0 <= n < 10 ^ Z.of_nat max_str_digits -> lex (str_int n) = [NUMBER n].
Proof.
  intros [Hn _]. destruct (str_int_digits n Hn) as [Hd Hne].
  rewrite (lex_digits _ Hne Hd), (int_str_int n Hn). reflexivity.
Qed.

Lemma lex_of_printed_number_witness : lex (str_int 1024) = [NUMBER 1024].
Proof.
  apply (lex_of_printed_number 1024).
  split; [lia | vm_compute; reflexivity].
Defined.

(** X8.  Printing a number literal of at most [max_str_digits] digits
    writes its value in decimal without leading zeros, whatever zeros the
    literal was written with. *)
Theorem run_print_number d :
  d <> EmptyString -> all_chars is_digit d = true ->
  (String.length d <= max_str_digits)%nat ->
  run_ezlang ("print " +:+ d) = Some (str_int (int d)).
Proof.
  intros Hne Hd _.
  assert (lex ("print " +:+ d) = [PRINT; NUMBER (int d)]) as Hl.
  { change ("print " +:+ d) with ("print" +:+ String " " d).
    rewrite lex_print, lex_space_char by reflexivity.
    rewrite (lex_digits d Hne Hd). reflexivity. }
  unfold run_ezlang, pipeline, pipeline_on. rewrite Hl. reflexivity.
Qed.

Lemma run_print_number_witness : run_ezlang "print 007" = Some "7".
Proof.
  apply (run_print_number "007");
    [discriminate | reflexivity | vm_compute; lia].
Defined.

End LexerShape.

(* ===================================================================== *)
(** * How statements change the state *)
(* ===================================================================== *)

Section StateFacts.
Import Interpreter.

(** X9.  After an assignment the variable reads as the value assigned;
    every other variable reads as before and nothing is printed. *)
Theorem assign_then_read x e it it' :
  eval_stmt (Assign x e) it = OK it' ->
  exists v,
    eval_expr it e = OK v
    /\ eval_expr it' (VarRef x) = OK v
    /\ (forall y, y <> x -> eval_expr it' (VarRef y) = eval_expr it (VarRef y))
    /\ output it' = output it.
Proof.
  simpl. destruct (eval_expr it e) as [v| |]; simpl; try discriminate.
  intros [= <-]. exists v. split; [reflexivity|].
  unfold vars_get, set_var; simpl. split; [|split; [|reflexivity]].
  - rewrite lookup_insert_eq. reflexivity.
  - intros y Hy. rewrite lookup_insert_ne by congruence. reflexivity.
Qed.

Lemma assign_then_read_witness :
  exists v,
    eval_expr init (BinaryOp Add (IntLiteral 2) (IntLiteral 3)) = OK v
    /\ eval_expr (set_var init "x" (VInt 5)) (VarRef "x") = OK v
    /\ (forall y, y <> "x" ->
          eval_expr (set_var init "x" (VInt 5)) (VarRef y)
          = eval_expr init (VarRef y))
    /\ output (set_var init "x" (VInt 5)) = output init.
Proof.
  apply (assign_then_read "x" (BinaryOp Add (IntLiteral 2) (IntLiteral 3))
           init (set_var init "x" (VInt 5))).
  reflexivity.
Defined.

(** What a state keeps of an earlier one: the lines printed, as a prefix,
    and the variables bound. *)
Lemma grows_refl it :
  (exists more, output it = output it ++ more)
  /\ (forall x, is_Some (vars it !! x) -> is_Some (vars it !! x)).
Proof. split; [exists []; rewrite app_nil_r; reflexivity | auto]. Qed.

Lemma eval_stmts_grows_of body :
  Forall (fun s => forall it it', eval_stmt s it = OK it' ->
            (exists more, output it' = output it ++ more)
            /\ (forall x, is_Some (vars it !! x) -> is_Some (vars it' !! x)))
         body ->
  forall it it', eval_stmts body it = OK it' ->
    (exists more, output it' = output it ++ more)
    /\ (forall x, is_Some (vars it !! x) -> is_Some (vars it' !! x)).
Proof.
  induction 1 as [|s body Hs _ IH]; intros it it'; simpl.
  - intros [= <-]. apply grows_refl.
  - destruct (eval_stmt s it) as [it1| |] eqn:E; simpl; try discriminate.
    intros H. destruct (Hs _ _ E) as [[m1 H1] V1].
    destruct (IH _ _ H) as [[m2 H2] V2]. split.
    + exists (m1 ++ m2). rewrite H2, H1, app_assoc. reflexivity.
    + auto.
Qed.

Lemma eval_stmt_grows s : forall it it',
  eval_stmt s it = OK it' ->
  (exists more, output it' = output it ++ more)
  /\ (forall x, is_Some (vars it !! x) -> is_Some (vars it' !! x)).
Proof.
  induction s as [e|c body IH|x e] using stmt_ind_nested; intros it it'.
  - simpl. destruct (eval_expr it e) as [v| |]; simpl; try discriminate.
    intros [= <-]. split; [eexists; reflexivity | auto].
  - rewrite eval_stmt_If.
    destruct (eval_expr it c) as [v| |]; simpl; try discriminate.
    destruct (Py.truthy v).
    + apply eval_stmts_grows_of. exact IH.
    + intros [= <-]. apply grows_refl.
  - simpl. destruct (eval_expr it e) as [v| |]; simpl; try discriminate.
    intros [= <-]. split; [exists []; simpl; rewrite app_nil_r; reflexivity|].
    intros y Hy. simpl. destruct (decide (x = y)) as [->|Hne].
    + rewrite lookup_insert_eq. eauto.
    + rewrite lookup_insert_ne by exact Hne. exact Hy.
Qed.

(** X10.  Running statements never takes back what was printed and never
    unbinds a variable: the output before is a prefix of the output after,
    and every variable bound before is bound after. *)
Theorem eval_stmts_only_adds l it it' :
  eval_stmts l it = OK it' ->
  (exists more, output it' = output it ++ more)
  /\ (forall x, is_Some (vars it !! x) -> is_Some (vars it' !! x)).
Proof.
  apply eval_stmts_grows_of. apply Forall_forall. intros s _.
  apply eval_stmt_grows.
Qed.

Lemma eval_stmts_only_adds_witness :
  exists more,
    output (append_output (set_var (append_output init "1") "x" (VInt 2)) "2")
    = output (append_output init "1") ++ more.
Proof.
  refine (proj1 (eval_stmts_only_adds
                   [Assign "x" (IntLiteral 2); Print (VarRef "x")]
                   (append_output init "1")
                   (append_output (set_var (append_output init "1") "x" (VInt 2)) "2")
                   _)).
  reflexivity.
Defined.

(** X11.  An [if] opens no scope: when its condition holds, the statements
    of the body run as if written in its place, so what they assign and
    print stays; when it does not hold, the [if] does nothing. *)
Theorem if_runs_body_in_place c body rest it v :
  eval_expr it c = OK v ->
  eval_stmts (If c body :: rest) it
  = if Py.truthy v then eval_stmts (body ++ rest) it else eval_stmts rest it.
Proof.
  intros Hc.
  change (eval_stmts (If c body :: rest) it)
    with (self' ← eval_stmt (If c body) it; eval_stmts rest self').
  rewrite eval_stmt_If, Hc. simpl.
  destruct (Py.truthy v); [|reflexivity].
  rewrite eval_stmts_app. reflexivity.
Qed.

Lemma if_runs_body_in_place_witness :
  eval_stmts [If (BinaryOp Gt (IntLiteral 2) (IntLiteral 1))
                 [Assign "x" (IntLiteral 7)];
              Print (VarRef "x")] init
  = eval_stmts [Assign "x" (IntLiteral 7); Print (VarRef "x")] init.
Proof.
  exact (if_runs_body_in_place (BinaryOp Gt (IntLiteral 2) (IntLiteral 1))
           [Assign "x" (IntLiteral 7)] [Print (VarRef "x")] init (VBool true)
           eq_refl).
Defined.

(* --------------------------------------------------------------------- *)
(** ** Which exceptions the evaluator raises *)

Lemma apply_raises op l r e :
  apply op l r = Raise e ->
  runtime_error e
  /\ (is_numeric l = true -> is_numeric r = true -> e = ZeroDivision).
Proof.
  unfold runtime_error.
  destruct op, l as [a|a|a], r as [b|b|b]; simpl;
    try discriminate;
    try (intros [= <-]; simpl; split; [auto | discriminate]);
    unfold Py.floordiv; simpl;
    match goal with |- context [Z.eqb ?x 0] => destruct (Z.eqb x 0) end;
    try discriminate; intros [= <-]; simpl; auto.
Qed.

Lemma apply_numeric op l r v :
  apply op l r = OK v ->
  is_numeric l = true -> is_numeric r = true -> is_numeric v = true.
Proof.
  destruct op, l as [a|a|a], r as [b|b|b]; simpl; try discriminate;
    try (intros [= <-]; reflexivity);
    unfold Py.floordiv; simpl;
    match goal with |- context [Z.eqb ?x 0] => destruct (Z.eqb x 0) end;
    try discriminate; intros [= <-]; reflexivity.
Qed.

(* --------------------------------------------------------------------- *)
(** ** Programs without text *)

Lemma eval_expr_numeric it e :
  no_text e = true -> numeric_env it ->
  match eval_expr it e with
  | OK v => is_numeric v = true
  | Raise x => x = ZeroDivision
  | Fuel => False
  end.
Proof.
  intros He Henv. induction e as [n|s|y|op l IHl r IHr]; simpl in *.
  - reflexivity.
  - discriminate.
  - unfold vars_get. destruct (vars it !! y) as [v|] eqn:E; simpl;
      [eapply Henv; eassumption | reflexivity].
  - apply andb_true_iff in He as [Hl Hr].
    specialize (IHl Hl). specialize (IHr Hr).
    destruct (eval_expr it l) as [lv| |]; simpl; auto.
    destruct (eval_expr it r) as [rv| |]; simpl; auto.
    destruct (apply op lv rv) as [v|x|] eqn:E.
    + eapply apply_numeric; eassumption.
    + apply apply_raises in E as [_ E]. auto.
    + pose proof (apply_clean op lv rv) as Hc. rewrite E in Hc. exact Hc.
Qed.

Lemma set_var_numeric it x v :
  numeric_env it -> is_numeric v = true -> numeric_env (set_var it x v).
Proof.
  intros Henv Hv y w. unfold set_var; simpl.
  destruct (decide (x = y)) as [->|Hne].
  - rewrite lookup_insert_eq. intros [= <-]. exact Hv.
  - rewrite lookup_insert_ne by exact Hne. apply Henv.
Qed.

Lemma eval_stmts_numeric_of body :
  Forall (fun s => no_text_stmt s = true -> forall it, numeric_env it ->
            match eval_stmt s it with
            | OK it' => numeric_env it'
            | Raise x => x = ZeroDivision
            | Fuel => False
            end) body ->
  forallb no_text_stmt body = true ->
  forall it, numeric_env it ->
    match eval_stmts body it with
    | OK it' => numeric_env it'
    | Raise x => x = ZeroDivision
    | Fuel => False
    end.
Proof.
  induction 1 as [|s body Hs _ IH]; intros Hb it Henv; simpl; [exact Henv|].
  simpl in Hb. apply andb_true_iff in Hb as [H1 H2].
  specialize (Hs H1 it Henv).
  destruct (eval_stmt s it) as [it1| |]; simpl; auto.
  apply IH; assumption.
Qed.

Lemma eval_stmt_numeric s :
  no_text_stmt s = true -> forall it, numeric_env it ->
  match eval_stmt s it with
  | OK it' => numeric_env it'
  | Raise x => x = ZeroDivision
  | Fuel => False
  end.
Proof.
  induction s as [e|c body IH|y e] using stmt_ind_nested; intros Hs it Henv.
  - simpl in *. pose proof (eval_expr_numeric it e Hs Henv) as H.
    destruct (eval_expr it e) as [v| |]; simpl; auto.
  - rewrite eval_stmt_If. simpl in Hs. apply andb_true_iff in Hs as [Hc Hb].
    pose proof (eval_expr_numeric it c Hc Henv) as H.
    destruct (eval_expr it c) as [v| |]; simpl; auto.
    destruct (Py.truthy v); [|exact Henv].
    apply eval_stmts_numeric_of; assumption.
  - simpl in *. pose proof (eval_expr_numeric it e Hs Henv) as H.
    destruct (eval_expr it e) as [v| |]; simpl; auto.
    apply set_var_numeric; assumption.
Qed.

Lemma eval_stmts_numeric ast :
  forallb no_text_stmt ast = true ->
  match eval_stmts ast init with
  | OK it => numeric_env it
  | Raise x => x = ZeroDivision
  | Fuel => False
  end.
Proof.
  intros Hast.
  assert (numeric_env init) as H0.
  { intros x v. unfold init; simpl. rewrite lookup_empty. discriminate. }
  apply (eval_stmts_numeric_of ast); [|exact Hast|exact H0].
  apply Forall_forall. intros s _. apply eval_stmt_numeric.
Qed.

(** X13.  A program in which no string literal occurs, run from the empty
    state, never fails with a TypeError, and when it succeeds every
    variable holds an int or a bool. *)
Theorem textless_program_raises_no_type_error ast :
  forallb no_text_stmt ast = true ->
  (forall e, eval_stmts ast init = Raise e -> exn_class_of e <> TypeError)
  /\ (forall it, eval_stmts ast init = OK it -> numeric_env it).
Proof.
  intros Hast. pose proof (eval_stmts_numeric ast Hast) as H.
  split.
  - intros e He. rewrite He in H. subst e. discriminate.
  - intros it Hit. rewrite Hit in H. exact H.
Qed.

Lemma textless_program_raises_no_type_error_witness :
  (forall e,
      eval_stmts [Assign "x" (BinaryOp Lt (IntLiteral 1) (IntLiteral 2));
                  Print (BinaryOp Div (VarRef "x") (VarRef "y"))] init
      = Raise e ->
      exn_class_of e <> TypeError)
  /\ (forall it,
        eval_stmts [Assign "x" (BinaryOp Lt (IntLiteral 1) (IntLiteral 2));
                    Print (BinaryOp Div (VarRef "x") (VarRef "y"))] init
        = OK it ->
        numeric_env it).
Proof.
  apply (textless_program_raises_no_type_error
           [Assign "x" (BinaryOp Lt (IntLiteral 1) (IntLiteral 2));
            Print (BinaryOp Div (VarRef "x") (VarRef "y"))]).
  reflexivity.
Defined.

End StateFacts.

(* ===================================================================== *)
(** * What the parser keeps *)
(* ===================================================================== *)

Section ParserSound.
Import Parser.
Variable toks : list token.

(** The trees built hold no string literal when the list has no STRING
    token. *)
Let Qe (e : expr) : Prop :=
  no_string_token toks = true -> no_text e = true.
Let Qs (s : stmt) : Prop :=
  no_string_token toks = true -> no_text_stmt s = true.
Let Ql (l : list stmt) : Prop :=
  no_string_token toks = true -> forallb no_text_stmt l = true.
Let Qany {A} (a : A) : Prop := True.

Lemma sound_ret {A} (Q : A -> Prop) a : Q a -> sound toks Q (ret a).
Proof. intros Ha self Ht Hp. simpl. repeat split; auto. Qed.

Lemma sound_bind {A B} (Q1 : A -> Prop) (Q2 : B -> Prop) m f :
  sound toks Q1 m -> (forall a, Q1 a -> sound toks Q2 (f a)) ->
  sound toks Q2 (bind m f).
Proof.
  intros Hm Hf self Ht Hp. unfold bind. specialize (Hm self Ht Hp).
  destruct (m self) as [[a s1]| |]; auto.
  destruct Hm as (Ht1 & Hp1 & Ha). specialize (Hf a Ha s1 Ht1 ltac:(lia)).
  destruct (f a s1) as [[b s2]| |]; auto.
  destruct Hf as (Ht2 & Hp2 & Hb). repeat split; auto; lia.
Qed.

Lemma sound_weaken {A} (Q Q' : A -> Prop) m :
  (forall a, Q a -> Q' a) -> sound toks Q m -> sound toks Q' m.
Proof.
  intros HQ Hm self Ht Hp. specialize (Hm self Ht Hp).
  destruct (m self) as [[a s1]| |]; auto.
  destruct Hm as (? & ? & ?). auto.
Qed.

Lemma advance_within self tk :
  tokens self = toks -> tokens self !! pos self = Some tk ->
  tokens (advance self) = toks /\ (S (pos self) <= length toks)%nat.
Proof.
  intros Ht H. apply lookup_lt_Some in H. rewrite Ht in H.
  unfold advance; simpl. split; [exact Ht | lia].
Qed.

Lemma sound_consume k : sound toks Qany (consume k).
Proof.
  intros self Ht Hp. unfold consume, peek, bind, raise. rewrite current_spec.
  destruct (tokens self !! pos self) as [tk|] eqn:E;
    [|right; reflexivity].
  destruct (kind_eqb (tok_kind tk) k); simpl; [|left; reflexivity].
  destruct (advance_within _ _ Ht E). simpl. repeat split; auto; lia.
Qed.

Lemma sound_consume_identifier : sound toks Qany consume_identifier.
Proof.
  intros self Ht Hp. unfold consume_identifier.
  destruct (tokens self !! pos self) as [tk|] eqn:E;
    [|right; reflexivity].
  destruct tk; try (left; reflexivity).
  destruct (advance_within _ _ Ht E). simpl. repeat split; auto; lia.
Qed.

Lemma sound_syntax_error_at {A} (Q : A -> Prop) prefix :
  sound toks Q (syntax_error_at prefix).
Proof.
  intros self Ht Hp. unfold syntax_error_at, bind, raise.
  rewrite current_spec.
  destruct (tokens self !! pos self); [left | right]; reflexivity.
Qed.

Lemma no_string_token_lookup i s :
  toks !! i = Some (STRING s) -> no_string_token toks = false.
Proof.
  unfold no_string_token. revert i.
  induction toks as [|t l IH]; intros i; [discriminate|].
  destruct i as [|i]; simpl.
  - intros [= ->]. reflexivity.
  - intros H. rewrite (IH _ H). apply andb_false_r.
Qed.

Lemma sound_parse_primary rec :
  sound toks Qe rec -> sound toks Qe (parse_primary rec).
Proof.
  intros Hrec self Ht Hp. unfold parse_primary.
  destruct (tokens self !! pos self) as [tk|] eqn:E;
    [|apply sound_syntax_error_at; assumption].
  destruct tk; try (apply sound_syntax_error_at; assumption).
  - destruct (advance_within _ _ Ht E). simpl.
    repeat split; auto; try lia; intros _; reflexivity.
  - destruct (advance_within _ _ Ht E). simpl.
    repeat split; auto; try lia.
    intros Hn. rewrite Ht in E. apply no_string_token_lookup in E. congruence.
  - eapply sound_bind; [apply sound_consume | | exact Ht | exact Hp].
    intros _ _. eapply sound_bind; [exact Hrec|]. intros node Hnode.
    eapply sound_bind; [apply sound_consume|]. intros _ _.
    apply sound_ret. exact Hnode.
  - destruct (advance_within _ _ Ht E). simpl.
    repeat split; auto; try lia; intros _; reflexivity.
Qed.

Lemma sound_binary_loop ops operand :
  sound toks Qe operand ->
  forall n node, Qe node -> sound toks Qe (binary_loop ops operand n node).
Proof.
  intros Hop. induction n as [|n IH]; intros node Hnode self Ht Hp; simpl;
    destruct (tokens self !! pos self) as [tk|] eqn:E;
    try (repeat split; auto; lia);
    destruct tk; try (repeat split; auto; lia);
    destruct (contains ops (binop_text o)); try (repeat split; auto; lia);
    try exact I.
  destruct (advance_within _ _ Ht E) as [Ht1 Hp1].
  assert (sound toks Qe
            (bind operand
               (fun rhs => binary_loop ops operand n (BinaryOp o node rhs))))
    as H.
  { eapply sound_bind; [exact Hop|]. intros rhs Hrhs. apply IH.
    intros Hn. simpl. rewrite (Hnode Hn), (Hrhs Hn). reflexivity. }
  specialize (H (advance self) Ht1 ltac:(simpl; lia)).
  destruct (bind operand _ (advance self)) as [[a s']| |]; auto.
  destruct H as (? & ? & ?). simpl in *. repeat split; auto; lia.
Qed.

Lemma sound_parse_mul_div rec n :
  sound toks Qe rec -> sound toks Qe (parse_mul_div rec n).
Proof.
  intros Hrec. unfold parse_mul_div.
  eapply sound_bind; [apply sound_parse_primary; exact Hrec|].
  intros node Hnode.
  apply sound_binary_loop; [apply sound_parse_primary; exact Hrec | exact Hnode].
Qed.

Lemma sound_parse_add_sub rec n :
  sound toks Qe rec -> sound toks Qe (parse_add_sub rec n).
Proof.
  intros Hrec. unfold parse_add_sub.
  eapply sound_bind; [apply sound_parse_mul_div; exact Hrec|].
  intros node Hnode.
  apply sound_binary_loop; [apply sound_parse_mul_div; exact Hrec | exact Hnode].
Qed.

Lemma sound_parse_compare rec n :
  sound toks Qe rec -> sound toks Qe (parse_compare rec n).
Proof.
  intros Hrec. unfold parse_compare.
  eapply sound_bind; [apply sound_parse_add_sub; exact Hrec|].
  intros l Hl self Ht Hp.
  destruct (tokens self !! pos self) as [tk|] eqn:E;
    try (repeat split; auto; lia).
  destruct tk; try (repeat split; auto; lia).
  destruct (advance_within _ _ Ht E) as [Ht1 Hp1].
  assert (sound toks Qe
            (bind (parse_add_sub rec n) (fun r => ret (BinaryOp o l r)))) as H.
  { eapply sound_bind; [apply sound_parse_add_sub; exact Hrec|].
    intros r Hr. apply sound_ret. intros Hn. simpl.
    rewrite (Hl Hn), (Hr Hn). reflexivity. }
  specialize (H (advance self) Ht1 ltac:(simpl; lia)).
  destruct (bind _ _ (advance self)) as [[a s']| |]; auto.
  destruct H as (? & ? & ?). simpl in *. repeat split; auto; lia.
Qed.

Lemma sound_parse_expr f : sound toks Qe (parse_expr f).
Proof.
  induction f as [|f IH]; [intros self _ _; exact I|].
  simpl. apply sound_parse_compare. exact IH.
Qed.

Lemma sound_if_body rec :
  sound toks Qs rec ->
  forall n body, Ql body -> sound toks Ql (if_body rec n body).
Proof.
  intros Hrec. induction n as [|n IH]; intros body Hb self Ht Hp; simpl;
    destruct (peek K_RBRACE self); try (repeat split; auto; lia);
    try exact I.
  eapply sound_bind; [exact Hrec | | exact Ht | exact Hp].
  intros s0 Hs0. apply IH. intros Hn.
  rewrite forallb_app, (Hb Hn). simpl. rewrite (Hs0 Hn). reflexivity.
Qed.

Lemma sound_parse_stmt_body f rec :
  sound toks Qs rec -> sound toks Qs (parse_stmt_body f rec).
Proof.
  intros Hrec self Ht Hp. unfold parse_stmt_body.
  destruct (peek K_PRINT self).
  { eapply sound_bind; [apply sound_consume | | exact Ht | exact Hp].
    intros _ _. eapply sound_bind; [apply sound_parse_expr|].
    intros e He. apply sound_ret. exact He. }
  destruct (peek K_IF self).
  { eapply sound_bind; [apply sound_consume | | exact Ht | exact Hp].
    intros _ _. eapply sound_bind; [apply sound_parse_expr|]. intros c Hc.
    eapply sound_bind; [apply sound_consume|]. intros _ _.
    eapply sound_bind; [apply sound_if_body; [exact Hrec | intros _; reflexivity]|].
    intros body Hb.
    eapply sound_bind; [apply sound_consume|]. intros _ _.
    apply sound_ret. intros Hn. simpl. rewrite (Hc Hn), (Hb Hn). reflexivity. }
  destruct (peek K_IDENTIFIER self && peek_next K_ASSIGN self);
    [|apply sound_syntax_error_at; assumption].
  eapply sound_bind; [apply sound_consume_identifier | | exact Ht | exact Hp].
  intros x _. eapply sound_bind; [apply sound_consume|]. intros _ _.
  eapply sound_bind; [apply sound_parse_expr|].
  intros e He. apply sound_ret. exact He.
Qed.

Lemma sound_parse_stmt f : sound toks Qs (parse_stmt f).
Proof.
  induction f as [|f IH]; [intros self _ _; exact I|].
  simpl. apply sound_parse_stmt_body. exact IH.
Qed.

Lemma sound_parse_loop fuel :
  forall n stmts, Ql stmts -> sound toks Ql (parse_loop fuel n stmts).
Proof.
  induction n as [|n IH]; intros stmts Hs self Ht Hp; simpl;
    destruct (pos self <? length (tokens self))%nat;
    try (repeat split; auto; lia); try exact I.
  eapply sound_bind; [apply sound_parse_stmt | | exact Ht | exact Hp].
  intros s0 Hs0. apply IH. intros Hn.
  rewrite forallb_app, (Hs Hn). simpl. rewrite (Hs0 Hn). reflexivity.
Qed.

(** The loop of [parse] returns only once no token is left. *)
Lemma parse_loop_exhausts fuel : forall n stmts self l self',
  parse_loop fuel n stmts self = OK (l, self') ->
  (length (tokens self') <= pos self')%nat.
Proof.
  induction n as [|n IH]; intros stmts self l self'; simpl;
    destruct (pos self <? length (tokens self))%nat eqn:E;
    try discriminate;
    try (intros [= <- <-]; apply Nat.ltb_ge in E; exact E).
  unfold bind. destruct (parse_stmt fuel self) as [[s0 s1]| |];
    try discriminate.
  apply IH.
Qed.

End ParserSound.

Section ParserOutcomes.
Import Parser.

(** X14.  When [parse] succeeds every token has been consumed: the parser
    object ends with [pos] at the length of the list, and the list is the
    one it was given.  No trailing token is left unread. *)
Theorem parse_consumes_every_token toks fuel ast self' :
  parse_with fuel (init toks) = OK (ast, self') ->
  tokens self' = toks /\ pos self' = length toks.
Proof.
  intros H. unfold parse_with in H.
  pose proof (sound_parse_loop toks fuel fuel [] (fun _ => eq_refl)
                (init toks) eq_refl ltac:(simpl; lia)) as Hs.
  rewrite H in Hs. destruct Hs as (Ht & Hp & _).
  apply parse_loop_exhausts in H. rewrite Ht in H.
  split; [exact Ht | lia].
Qed.

Lemma parse_consumes_every_token_witness :
  tokens {| tokens := [PRINT; NUMBER 1]; pos := 2 |} = [PRINT; NUMBER 1]
  /\ pos {| tokens := [PRINT; NUMBER 1]; pos := 2 |} = length [PRINT; NUMBER 1].
Proof.
  apply (parse_consumes_every_token [PRINT; NUMBER 1] 3
           [Print (IntLiteral 1)]).
  reflexivity.
Defined.

Lemma parse_no_text toks ast :
  no_string_token toks = true -> parse toks = OK ast ->
  forallb no_text_stmt ast = true.
Proof.
  intros Hn. unfold parse, parse_with.
  pose proof (sound_parse_loop toks (S (length toks)) (S (length toks)) []
                (fun _ => eq_refl) (init toks) eq_refl ltac:(simpl; lia)) as Hs.
  destruct (parse_loop _ _ _ _) as [[l s']| |]; simpl; try discriminate.
  intros [= <-]. destruct Hs as (_ & _ & Hl). exact (Hl Hn).
Qed.

Lemma mem_drop c k s : Text.mem c (Text.drop k s) = true -> Text.mem c s = true.
Proof.
  revert s; induction k as [|k IH]; intros [|a s]; simpl; auto.
  intros H. rewrite (IH _ H). apply orb_true_r.
Qed.

Lemma lex_no_string_token code :
  Text.mem Text.dquote code = false -> no_string_token (lex code) = true.
Proof.
  intros Hq. unfold no_string_token. apply forallb_forall.
  intros tk Hin. apply list_elem_of_In in Hin.
  destruct (kind_eqb (tok_kind tk) K_STRING) eqn:Ek; [|reflexivity].
  destruct tk; try discriminate.
  unfold lex in Hin. rewrite list_elem_of_omap in Hin.
  destruct Hin as (m & Hm & Hlex).
  apply scan_elem in Hm as (n & H1 & _ & _).
  pose proof (lex_match_kind _ _ Hlex) as Hk. rewrite Hk in H1. simpl in H1.
  apply match_at_string in H1.
  destruct (Text.drop (Regex.m_start m - 0) code) as [|c r] eqn:Ed;
    [discriminate|].
  simpl in H1. destruct (Ascii.eqb c Text.dquote) eqn:Ec; [|discriminate].
  apply Ascii.eqb_eq in Ec. subst c.
  assert (Text.mem Text.dquote (Text.drop (Regex.m_start m - 0) code) = true)
    as Hd by (rewrite Ed; reflexivity).
  apply mem_drop in Hd. congruence.
Qed.

(** X16.  A program text in which no double quote occurs never fails with a
    TypeError, neither in the parser nor when it runs. *)
Theorem quoteless_text_raises_no_type_error code e :
  Text.mem Text.dquote code = false ->
  pipeline code = Raise e ->
  exn_class_of e <> TypeError.
Proof.
  intros Hq Hp. pose proof (lex_no_string_token code Hq) as Hn.
  destruct (parse (lex code)) as [ast|e'|] eqn:E.
  - rewrite (pipeline_parsed _ _ E) in Hp.
    pose proof (eval_stmts_numeric ast (parse_no_text _ _ Hn E)) as Hz.
    destruct (Interpreter.eval_stmts ast Interpreter.init) as [it|x|];
      simpl in Hp;
      [discriminate | | contradiction].
    injection Hp as <-. subst x. discriminate.
  - rewrite (pipeline_parse_raise _ _ E) in Hp. injection Hp as <-.
    revert E. unfold parse, parse_with.
    pose proof (sound_parse_loop (lex code) (S (length (lex code)))
                  (S (length (lex code))) [] (fun _ => eq_refl)
                  (init (lex code)) eq_refl ltac:(simpl; lia)) as Hs.
    destruct (parse_loop _ _ _ _) as [[l s']| |]; simpl; try discriminate.
    intros [= <-]. destruct Hs as [Hs | Hs]; rewrite Hs; discriminate.
  - pose proof (parse_total (lex code)) as Ht. rewrite E in Ht. contradiction.
Qed.

Lemma quoteless_text_raises_no_type_error_witness :
  exn_class_of ZeroDivision <> TypeError.
Proof.
  apply (quoteless_text_raises_no_type_error "x = (1 < 2) / y" ZeroDivision);
    reflexivity.
Defined.

End ParserOutcomes.

(* ===================================================================== *)
(** * Parsing what was rendered *)
(* ===================================================================== *)

Section Cursor.
Import Parser.

Lemma state_eq (a b : Parser.t) :
  tokens a = tokens b -> pos a = pos b -> a = b.
Proof. destruct a, b; simpl; intros -> ->; reflexivity. Qed.

Lemma remaining_head self tk rest :
  remaining self = tk :: rest -> tokens self !! pos self = Some tk.
Proof.
  unfold remaining. intros H.
  pose proof (lookup_drop (tokens self) (pos self) O) as L.
  change (drop (pos self) (tokens self)) with (skipn (pos self) (tokens self)) in L.
  rewrite H, Nat.add_0_r in L. symmetry. exact L.
Qed.

Lemma remaining_nil self :
  remaining self = [] -> tokens self !! pos self = None.
Proof.
  unfold remaining. intros H. apply lookup_ge_None.
  pose proof (List.length_skipn (pos self) (tokens self)) as L.
  rewrite H in L. simpl in L. lia.
Qed.

Lemma remaining_advance self tk rest :
  remaining self = tk :: rest -> remaining (advance self) = rest.
Proof.
  intros H. pose proof (remaining_head _ _ _ H) as L.
  unfold remaining in *. simpl.
  pose proof (drop_S _ _ _ L) as D.
  change (drop (pos self) (tokens self)) with (skipn (pos self) (tokens self)) in D.
  change (drop (S (pos self)) (tokens self))
    with (skipn (S (pos self)) (tokens self)) in D.
  rewrite H in D. injection D as D. symmetry. exact D.
Qed.

Lemma remaining_forward self front rest :
  remaining self = front ++ rest ->
  remaining (forward (length front) self) = rest.
Proof.
  unfold remaining, forward. simpl. intros H.
  pose proof (drop_drop (tokens self) (length front) (pos self)) as D.
  change (@drop token) with (@skipn token) in D.
  rewrite <- D, H. apply drop_app_length.
Qed.

Lemma advance_forward self : advance self = forward 1 self.
Proof. apply state_eq; simpl; [reflexivity | lia]. Qed.

Lemma forward_forward a b self :
  forward b (forward a self) = forward (a + b) self.
Proof. apply state_eq; simpl; [reflexivity | lia]. Qed.

Lemma forward_0 self : forward 0 self = self.
Proof. apply state_eq; simpl; [reflexivity | lia]. Qed.

Lemma kind_eqb_refl k : kind_eqb k k = true.
Proof. destruct k; reflexivity. Qed.

Lemma consume_next self k tk rest :
  remaining self = tk :: rest -> tok_kind tk = k ->
  consume k self = OK (tk, forward 1 self).
Proof.
  intros H <-. apply remaining_head in H.
  unfold consume, peek, bind. rewrite current_spec, H, kind_eqb_refl.
  rewrite advance_forward. reflexivity.
Qed.

Lemma peek_next_token self tk rest k :
  remaining self = tk :: rest -> peek k self = kind_eqb (tok_kind tk) k.
Proof. intros H. apply remaining_head in H. unfold peek. rewrite H. reflexivity. Qed.

Lemma peek_at_end self k : remaining self = [] -> peek k self = false.
Proof. intros H. apply remaining_nil in H. unfold peek. rewrite H. reflexivity. Qed.

(** The loop stops where the next token is no operator of [ops]. *)
Lemma binary_loop_stop ops operand n node self :
  no_op ops (remaining self) = true ->
  binary_loop ops operand n node self = OK (node, self).
Proof.
  intros H. destruct (remaining self) as [|tk rest] eqn:E.
  - apply remaining_nil in E. destruct n; simpl; rewrite E; reflexivity.
  - apply remaining_head in E.
    destruct n; simpl; rewrite E; destruct tk; try reflexivity;
      simpl in H; apply negb_true_iff in H; rewrite H; reflexivity.
Qed.

Lemma binary_loop_step ops operand n node self o rest :
  remaining self = OP o :: rest ->
  contains ops (binop_text o) = true ->
  binary_loop ops operand (S n) node self
  = bind operand
      (fun rhs => binary_loop ops operand n (BinaryOp o node rhs))
      (forward 1 self).
Proof.
  intros H Hc. apply remaining_head in H. simpl. rewrite H, Hc.
  rewrite advance_forward. reflexivity.
Qed.

End Cursor.

Section RenderExpr.
Import Parser.

Lemma render_paren lvl e :
  parenthesized lvl e = true ->
  render lvl e = LPAREN :: render 0 e ++ [RPAREN].
Proof.
  destruct e as [n|s|x|o l r]; simpl; try discriminate.
  intros H. apply negb_true_iff in H. rewrite H. reflexivity.
Qed.

Lemma render_flat lvl e :
  parenthesized lvl e = false -> render lvl e = render 0 e.
Proof.
  destruct e as [n|s|x|o l r]; simpl; try reflexivity.
  intros H. apply negb_false_iff in H. rewrite H. reflexivity.
Qed.

Lemma render_binop o l r :
  render 0 (BinaryOp o l r)
  = render (Nat.max 1 (prec o)) l ++ op_token o :: render (S (prec o)) r.
Proof. reflexivity. Qed.

Lemma spine_lt p e : (spine p e < nodes e)%nat.
Proof.
  induction e as [n|s|x|o l IHl r IHr]; simpl; try lia.
  destruct (prec o =? p)%nat; lia.
Qed.

Variable rec : M expr.
Variable h : nat.
Hypothesis Hrec : forall x, (nodes x < h)%nat -> closes rec x.

Lemma fits_lt lvl e : (nodes e < h)%nat -> fits h lvl e.
Proof. intros H. split; [lia | auto]. Qed.

Lemma primary_paren lvl e self rest :
  parenthesized lvl e = true -> (nodes e < h)%nat ->
  remaining self = render lvl e ++ rest ->
  parse_primary rec self = OK (e, forward (length (render lvl e)) self).
Proof.
  intros Hp Hn H. rewrite (render_paren _ _ Hp) in *.
  simpl in H. rewrite <- app_assoc in H. simpl in H.
  unfold parse_primary. rewrite (remaining_head _ _ _ H).
  unfold bind. rewrite (consume_next _ K_LPAREN _ _ H eq_refl).
  apply remaining_advance in H. rewrite advance_forward in H.
  rewrite (Hrec e Hn _ _ H).
  apply remaining_forward in H.
  rewrite (consume_next _ K_RPAREN _ _ H eq_refl). unfold ret.
  f_equal. f_equal. rewrite !forward_forward.
  apply state_eq; simpl; [reflexivity|]. rewrite length_app. simpl. lia.
Qed.

Lemma primary_atom e self rest :
  parenthesized 3 e = false ->
  remaining self = render 3 e ++ rest ->
  parse_primary rec self = OK (e, forward (length (render 3 e)) self).
Proof.
  intros Hp H. destruct e as [n|s|x|o l r]; simpl in *;
    try (unfold parse_primary; rewrite (remaining_head _ _ _ H);
         rewrite advance_forward; reflexivity).
  destruct o; discriminate.
Qed.

(** [parse_primary] reads an operand written at the highest strength. *)
Lemma primary_ok e self rest :
  fits h 3 e ->
  remaining self = render 3 e ++ rest ->
  parse_primary rec self = OK (e, forward (length (render 3 e)) self).
Proof.
  intros [_ Hf] H. destruct (parenthesized 3 e) eqn:Hp.
  - eapply primary_paren; eauto.
  - eapply primary_atom; eauto.
Qed.

Lemma render_same_when_paren a b e :
  parenthesized a e = true -> parenthesized b e = true ->
  render a e = render b e.
Proof. intros Ha Hb. rewrite (render_paren _ _ Ha), (render_paren _ _ Hb). reflexivity. Qed.

(** The multiplicative loop, in continuation form. *)
Lemma mul_spine e : forall m self rest,
  fits h 2 e ->
  remaining self = render 2 e ++ rest ->
  parse_mul_div rec (spine 2 e + m) self
  = binary_loop "*/" (parse_primary rec) m e
      (forward (length (render 2 e)) self).
Proof.
  induction e as [n|s|x|o l IHl r IHr]; intros m self rest [Hn Hp] H.
  1-3: unfold parse_mul_div, bind;
       match goal with
       | H : remaining _ = render 2 ?a ++ _ |- _ =>
           rewrite (primary_atom a self rest eq_refl H)
       end; reflexivity.
  destruct (parenthesized 2 (BinaryOp o l r)) eqn:Epar.
  - assert (spine 2 (BinaryOp o l r) = O) as ->.
    { unfold parenthesized in Epar.
      apply negb_true_iff, Nat.leb_gt in Epar. cbn [spine].
      destruct (Nat.eqb_spec (prec o) 2); [lia | reflexivity]. }
    unfold parse_mul_div, bind.
    erewrite primary_paren by (eauto). reflexivity.
  - assert (prec o = 2%nat) as Ho.
    { unfold parenthesized in Epar.
      apply negb_false_iff, Nat.leb_le in Epar.
      destruct o; simpl in *; lia. }
    rewrite (render_flat _ _ Epar), render_binop, Ho in *.
    simpl Nat.max in *. simpl nodes in Hn.
    assert (spine 2 (BinaryOp o l r) = S (spine 2 l)) as ->
      by (simpl; rewrite Ho; reflexivity).
    assert (nodes l < h)%nat as Hl by lia.
    assert (nodes r < h)%nat as Hr by lia.
    rewrite <- app_assoc in H. simpl in H.
    rewrite Nat.add_succ_comm.
    rewrite (IHl (S m) self _ (fits_lt 2 l Hl) H).
    apply remaining_forward in H.
    assert (op_token o = OP o) as Hop by (unfold op_token; rewrite Ho; reflexivity).
    rewrite Hop in H.
    rewrite (binary_loop_step _ _ _ _ _ _ _ H)
      by (destruct o; simpl in Ho; try discriminate; reflexivity).
    apply remaining_advance in H. rewrite advance_forward in H.
    unfold bind.
    rewrite (primary_ok r _ rest (fits_lt 3 r Hr) H).
    f_equal. rewrite !forward_forward.
    apply state_eq; simpl; [reflexivity|].
    rewrite Hop, length_app. simpl. lia.
Qed.


(** [parse_mul_div] reads a multiplicative operand. *)
Lemma pmd_ok e n self rest :
  fits h 2 e -> (spine 2 e <= n)%nat -> quiet2 rest = true ->
  remaining self = render 2 e ++ rest ->
  parse_mul_div rec n self = OK (e, forward (length (render 2 e)) self).
Proof.
  intros Hf Hn Hq H.
  replace n with (spine 2 e + (n - spine 2 e))%nat by lia.
  rewrite (mul_spine e _ self rest Hf H).
  apply binary_loop_stop. rewrite (remaining_forward _ _ _ H). exact Hq.
Qed.

Lemma leaf_render e : spine 1 e = O -> render 1 e = render 2 e.
Proof.
  destruct e as [n|s|x|o l r]; try reflexivity.
  destruct o; simpl; try discriminate; reflexivity.
Qed.

Lemma leaf_fits e : spine 1 e = O -> fits h 1 e -> fits h 2 e.
Proof.
  intros Hs [Hn Hp]. split; [exact Hn|].
  destruct e as [n|s|x|o l r]; try discriminate.
  destruct o; simpl in Hs; try discriminate; simpl; try discriminate;
    intros _; apply Hp; reflexivity.
Qed.

Lemma add_leaf e k n self rest :
  fits h 1 e -> spine 1 e = O -> (nodes e <= n)%nat -> quiet2 rest = true ->
  remaining self = render 1 e ++ rest ->
  add_from rec n k self
  = binary_loop "+-" (parse_mul_div rec n) k e
      (forward (length (render 1 e)) self).
Proof.
  intros Hf Hs Hn Hq H. rewrite (leaf_render _ Hs) in *.
  unfold add_from, bind.
  rewrite (pmd_ok e n self rest (leaf_fits _ Hs Hf)
             ltac:(pose proof (spine_lt 2 e); lia) Hq H).
  reflexivity.
Qed.

(** The additive loop, in continuation form. *)
Lemma add_spine e : forall k n self rest,
  fits h 1 e -> (nodes e <= n)%nat -> quiet2 rest = true ->
  remaining self = render 1 e ++ rest ->
  add_from rec n (spine 1 e + k) self
  = binary_loop "+-" (parse_mul_div rec n) k e
      (forward (length (render 1 e)) self).
Proof.
  induction e as [z|s|x|o l IHl r IHr]; intros k n self rest Hf Hn Hq H.
  1-3: apply (add_leaf _ k n self rest Hf eq_refl Hn Hq H).
  destruct (Nat.eqb_spec (prec o) 1) as [Ho|Ho].
  - assert (render 1 (BinaryOp o l r) = render 1 l ++ OP o :: render 2 r)
      as Hr1 by (destruct o; simpl in Ho; try discriminate; reflexivity).
    assert (spine 1 (BinaryOp o l r) = S (spine 1 l)) as ->
      by (simpl; rewrite Ho; reflexivity).
    assert (quiet2 (OP o :: render 2 r ++ rest) = true) as Hq'
      by (destruct o; simpl in Ho; try discriminate; reflexivity).
    assert (contains "+-" (binop_text o) = true) as Hc
      by (destruct o; simpl in Ho; try discriminate; reflexivity).
    destruct Hf as [Hh _]. simpl nodes in Hh, Hn.
    assert (nodes l < h)%nat as Hl by lia.
    assert (nodes r < h)%nat as Hr by lia.
    assert (nodes l <= n)%nat as Hnl by lia.
    assert (spine 2 r <= n)%nat as Hsr by (pose proof (spine_lt 2 r); lia).
    rewrite Hr1 in *. rewrite <- app_assoc in H. simpl in H.
    rewrite Nat.add_succ_comm.
    rewrite (IHl (S k) n self _ (fits_lt 1 l Hl) Hnl Hq' H).
    apply remaining_forward in H.
    rewrite (binary_loop_step _ _ _ _ _ _ _ H Hc).
    apply remaining_advance in H. rewrite advance_forward in H.
    unfold bind.
    rewrite (pmd_ok r n _ rest (fits_lt 2 r Hr) Hsr Hq H).
    f_equal. rewrite !forward_forward.
    apply state_eq; simpl; [reflexivity|].
    rewrite length_app. simpl. lia.
  - assert (spine 1 (BinaryOp o l r) = O) as Hs
      by (simpl; apply Nat.eqb_neq in Ho; rewrite Ho; reflexivity).
    rewrite Hs. apply (add_leaf _ k n self rest Hf Hs Hn Hq H).
Qed.

(** [parse_add_sub] reads an additive operand. *)
Lemma pas_ok e n self rest :
  fits h 1 e -> (nodes e <= n)%nat -> quiet1 rest = true ->
  remaining self = render 1 e ++ rest ->
  parse_add_sub rec n self = OK (e, forward (length (render 1 e)) self).
Proof.
  intros Hf Hn Hq H. apply andb_true_iff in Hq as [Hq2 Hq1].
  change (parse_add_sub rec n self) with (add_from rec n n self).
  pose proof (spine_lt 1 e) as Hs.
  pose proof (add_spine e (n - spine 1 e) n self rest Hf Hn Hq2 H) as E.
  replace (spine 1 e + (n - spine 1 e))%nat with n in E by lia.
  rewrite E. apply binary_loop_stop.
  rewrite (remaining_forward _ _ _ H). exact Hq1.
Qed.

(** No comparison follows: [parse_compare] returns its left operand. *)
Lemma compare_tail l n self :
  quiet0 (remaining self) = true ->
  match tokens self !! pos self with
  | Some (COMPARE op) =>
      bind (parse_add_sub rec n) (fun r => ret (BinaryOp op l r))
        (advance self)
  | _ => OK (l, self)
  end = OK (l, self).
Proof.
  intros Hq. destruct (remaining self) as [|tk rest] eqn:E.
  - rewrite (remaining_nil _ E). reflexivity.
  - rewrite (remaining_head _ _ _ E).
    destruct tk; try reflexivity.
    unfold quiet0 in Hq. rewrite andb_false_r in Hq. discriminate.
Qed.

(** [parse_compare] reads an expression. *)
Lemma compare_ok e n self rest :
  (nodes e <= h)%nat -> (nodes e <= n)%nat -> quiet0 rest = true ->
  remaining self = render 0 e ++ rest ->
  parse_compare rec n self = OK (e, forward (length (render 0 e)) self).
Proof.
  intros Hh Hn Hq H. unfold parse_compare, bind.
  destruct (parenthesized 1 e) eqn:Hp.
  - destruct e as [z|s|x|o l r]; try discriminate.
    assert (render 0 (BinaryOp o l r)
            = render 1 l ++ COMPARE o :: render 1 r) as Hr0
      by (destruct o; try discriminate; reflexivity).
    simpl nodes in Hh, Hn.
    assert (nodes l < h)%nat as Hl by lia.
    assert (nodes r < h)%nat as Hr by lia.
    rewrite Hr0 in *. rewrite <- app_assoc in H. simpl in H.
    rewrite (pas_ok l n self (COMPARE o :: render 1 r ++ rest)
               (fits_lt 1 l Hl) ltac:(lia) eq_refl H).
    apply remaining_forward in H. rewrite (remaining_head _ _ _ H).
    apply remaining_advance in H. rewrite advance_forward in *.
    unfold quiet0 in Hq. apply andb_true_iff in Hq as [Hq _].
    rewrite (pas_ok r n _ rest (fits_lt 1 r Hr) ltac:(lia) Hq H).
    unfold ret. f_equal. f_equal. rewrite !forward_forward.
    apply state_eq; simpl; [reflexivity|].
    rewrite length_app. simpl. lia.
  - assert (fits h 1 e) as Hf
      by (split; [exact Hh | rewrite Hp; discriminate]).
    rewrite <- (render_flat _ _ Hp) in *.
    assert (quiet1 rest = true) as Hq1
      by (unfold quiet0 in Hq; apply andb_true_iff in Hq as [Hq _]; exact Hq).
    rewrite (pas_ok e n self rest Hf Hn Hq1 H).
    apply compare_tail. rewrite (remaining_forward _ _ _ H). exact Hq.
Qed.

End RenderExpr.

Section RenderProgram.
Import Parser.

(** [parse_expr] reads an expression of at most as many nodes as it has
    fuel beyond the first unit. *)
Lemma parse_expr_reads f : forall e self rest,
  (nodes e <= f)%nat -> quiet0 rest = true ->
  remaining self = render 0 e ++ rest ->
  parse_expr (S f) self = OK (e, forward (length (render 0 e)) self).
Proof.
  induction f as [|f IH]; intros e self rest Hn Hq H;
    change (parse_expr (S ?g)) with (parse_compare (parse_expr g) g).
  - apply (compare_ok (parse_expr 0) 0) with (rest := rest); auto.
    intros x Hx. lia.
  - apply (compare_ok (parse_expr (S f)) (S f)) with (rest := rest); auto.
    intros x Hx self' rest' H'.
    apply (IH x self' (RPAREN :: rest')); [lia | reflexivity | exact H'].
Qed.

Lemma stmt_tokens_if c body :
  stmt_tokens (If c body)
  = IF :: render 0 c ++ LBRACE :: program_tokens body ++ [RBRACE].
Proof. reflexivity. Qed.

Lemma if_tokens_app c body rest :
  stmt_tokens (If c body) ++ rest
  = IF :: render 0 c ++ LBRACE :: program_tokens body ++ RBRACE :: rest.
Proof.
  rewrite stmt_tokens_if. simpl. rewrite <- app_assoc. simpl.
  rewrite <- app_assoc. reflexivity.
Qed.

Lemma cost_if c body : cost (If c body) = S (nodes c + total_cost body).
Proof. reflexivity. Qed.

Lemma length_le_total_cost l : (length l <= total_cost l)%nat.
Proof. induction l as [|x r IH]; simpl; lia. Qed.

Lemma stmt_head s rest :
  exists tk tl,
    stmt_tokens s ++ rest = tk :: tl /\ starts_statement (tk :: tl) = true.
Proof.
  destruct s as [e|c body|x e].
  - exists PRINT, (render 0 e ++ rest). split; reflexivity.
  - rewrite if_tokens_app. eexists _, _. split; reflexivity.
  - exists (IDENTIFIER x), (ASSIGN :: render 0 e ++ rest). split; reflexivity.
Qed.

Lemma starts_quiet l : starts_statement l = true -> quiet0 l = true.
Proof. destruct l as [|[] ?]; try discriminate; reflexivity. Qed.

Lemma starts_not_rbrace tk tl :
  starts_statement (tk :: tl) = true -> kind_eqb (tok_kind tk) K_RBRACE = false.
Proof. destruct tk; try discriminate; reflexivity. Qed.

Lemma program_follow body rest :
  quiet0 rest = true -> quiet0 (program_tokens body ++ rest) = true.
Proof.
  intros Hq. destruct body as [|x r]; [exact Hq|].
  simpl. rewrite <- app_assoc.
  destruct (stmt_head x (program_tokens r ++ rest)) as (tk & tl & -> & Hs).
  apply starts_quiet, Hs.
Qed.

Lemma peek_next_second self a b rest k :
  remaining self = a :: b :: rest ->
  peek_next k self = kind_eqb (tok_kind b) k.
Proof.
  intros H. apply remaining_advance, remaining_head in H. simpl in H.
  unfold peek_next. replace (pos self + 1)%nat with (S (pos self)) by lia.
  rewrite H. reflexivity.
Qed.

Lemma peek_next_none self a k :
  remaining self = [a] -> peek_next k self = false.
Proof.
  intros H. apply remaining_advance, remaining_nil in H. simpl in H.
  unfold peek_next. replace (pos self + 1)%nat with (S (pos self)) by lia.
  rewrite H. reflexivity.
Qed.

Lemma remaining_nonempty self tk rest :
  remaining self = tk :: rest ->
  (pos self <? length (tokens self))%nat = true.
Proof.
  intros H. apply remaining_head, lookup_lt_Some in H.
  apply Nat.ltb_lt. exact H.
Qed.

Lemma remaining_empty self :
  remaining self = [] -> (pos self <? length (tokens self))%nat = false.
Proof.
  intros H. apply remaining_nil, lookup_ge_None in H.
  apply Nat.ltb_ge. exact H.
Qed.

Lemma remaining_init toks : remaining (init toks) = toks.
Proof. reflexivity. Qed.

Lemma if_body_S P n acc self :
  if_body P (S n) acc self
  = if peek K_RBRACE self then OK (acc, self)
    else bind P (fun s => if_body P n (acc ++ [s])) self.
Proof. reflexivity. Qed.

Lemma if_body_stop P n acc self rest :
  remaining self = RBRACE :: rest -> if_body P n acc self = OK (acc, self).
Proof.
  intros H. pose proof (peek_next_token _ _ _ K_RBRACE H) as E. simpl in E.
  destruct n; simpl; rewrite E; reflexivity.
Qed.

Lemma parse_loop_S fuel n acc self :
  parse_loop fuel (S n) acc self
  = if (pos self <? length (tokens self))%nat
    then bind (parse_stmt fuel) (fun s => parse_loop fuel n (acc ++ [s])) self
    else OK (acc, self).
Proof. reflexivity. Qed.

Lemma parse_loop_end fuel n acc self :
  remaining self = [] -> parse_loop fuel n acc self = OK (acc, self).
Proof.
  intros H. apply remaining_empty in H.
  destruct n; simpl; rewrite H; reflexivity.
Qed.

(** What the induction on statements hands to the loops: every statement
    of the list is read by [parse_stmt] with fuel beyond its cost. *)
Lemma if_body_prefix f body : forall m acc self rest,
  Forall (fun x => forall g self rest,
            (cost x <= g)%nat -> quiet0 rest = true ->
            remaining self = stmt_tokens x ++ rest ->
            parse_stmt (S g) self
            = OK (x, forward (length (stmt_tokens x)) self)) body ->
  (total_cost body <= f)%nat ->
  quiet0 rest = true ->
  remaining self = program_tokens body ++ rest ->
  if_body (parse_stmt (S f)) (length body + m) acc self
  = if_body (parse_stmt (S f)) m (acc ++ body)
      (forward (length (program_tokens body)) self).
Proof.
  induction body as [|x r IH]; intros m acc self rest Hall Hc Hq H.
  - simpl. rewrite app_nil_r, forward_0. reflexivity.
  - apply Forall_cons in Hall as [Hx Hr]. simpl in Hc, H.
    rewrite <- app_assoc in H.
    change (length (x :: r) + m)%nat with (S (length r + m)).
    rewrite if_body_S.
    destruct (stmt_head x (program_tokens r ++ rest)) as (tk & tl & E & Hs).
    assert (peek K_RBRACE self = false) as ->.
    { rewrite E in H. rewrite (peek_next_token _ _ _ K_RBRACE H).
      apply (starts_not_rbrace _ _ Hs). }
    unfold bind.
    rewrite (Hx f self (program_tokens r ++ rest) ltac:(lia)
               (program_follow r rest Hq) H).
    apply remaining_forward in H.
    rewrite (IH m (acc ++ [x]) _ rest Hr ltac:(lia) Hq H).
    rewrite <- app_assoc, forward_forward. simpl. rewrite length_app.
    reflexivity.
Qed.

(** [parse_stmt] reads a statement, given fuel beyond its cost. *)
Lemma parse_stmt_reads s : forall f self rest,
  (cost s <= f)%nat -> quiet0 rest = true ->
  remaining self = stmt_tokens s ++ rest ->
  parse_stmt (S f) self = OK (s, forward (length (stmt_tokens s)) self).
Proof.
  induction s as [e|c body IH|x e] using stmt_ind_nested;
    intros f self rest Hc Hq H.
  - simpl in Hc, H. destruct f as [|f]; [lia|].
    change (parse_stmt (S (S f)))
      with (parse_stmt_body (S f) (parse_stmt (S f))).
    unfold parse_stmt_body.
    rewrite (peek_next_token _ _ _ K_PRINT H). cbn [kind_eqb tok_kind andb].
    unfold parse_print, bind.
    rewrite (consume_next _ K_PRINT _ _ H eq_refl).
    apply remaining_advance in H. rewrite advance_forward in H.
    rewrite (parse_expr_reads f e _ rest ltac:(lia) Hq H). unfold ret.
    f_equal. f_equal. rewrite forward_forward. reflexivity.
  - rewrite cost_if in Hc. rewrite if_tokens_app in H.
    destruct f as [|f]; [lia|].
    change (parse_stmt (S (S f)))
      with (parse_stmt_body (S f) (parse_stmt (S f))).
    unfold parse_stmt_body.
    rewrite (peek_next_token _ _ _ K_PRINT H).
    rewrite (peek_next_token _ _ _ K_IF H). cbn [kind_eqb tok_kind andb].
    unfold parse_if, bind.
    rewrite (consume_next _ K_IF _ _ H eq_refl).
    apply remaining_advance in H. rewrite advance_forward in H.
    rewrite (parse_expr_reads f c _
               (LBRACE :: program_tokens body ++ RBRACE :: rest)
               ltac:(lia) eq_refl H).
    apply remaining_forward in H.
    rewrite (consume_next _ K_LBRACE _ _ H eq_refl).
    apply remaining_advance in H. rewrite advance_forward in H.
    pose proof (length_le_total_cost body) as Hlen.
    pose proof (if_body_prefix f body (S f - length body) [] _
                  (RBRACE :: rest) IH ltac:(lia) eq_refl H) as E.
    replace (length body + (S f - length body))%nat with (S f) in E by lia.
    rewrite E. clear E.
    apply remaining_forward in H.
    rewrite (if_body_stop _ _ _ _ _ H).
    rewrite (consume_next _ K_RBRACE _ _ H eq_refl). unfold ret.
    f_equal. f_equal. rewrite !forward_forward, stmt_tokens_if.
    apply state_eq; [reflexivity|].
    cbn [pos forward length]. rewrite !length_app. cbn [length].
    rewrite !length_app. cbn [length]. lia.
  - simpl in Hc, H. destruct f as [|f]; [lia|].
    change (parse_stmt (S (S f)))
      with (parse_stmt_body (S f) (parse_stmt (S f))).
    unfold parse_stmt_body.
    rewrite (peek_next_token _ _ _ K_PRINT H).
    rewrite (peek_next_token _ _ _ K_IF H).
    rewrite (peek_next_token _ _ _ K_IDENTIFIER H).
    rewrite (peek_next_second _ _ _ _ K_ASSIGN H). cbn [kind_eqb tok_kind andb].
    unfold parse_assignment, bind, consume_identifier.
    rewrite (remaining_head _ _ _ H).
    apply remaining_advance in H.
    rewrite (consume_next _ K_ASSIGN _ _ H eq_refl).
    apply remaining_advance in H. rewrite !advance_forward in *.
    rewrite forward_forward in *.
    rewrite (parse_expr_reads f e _ rest ltac:(lia) Hq H). unfold ret.
    f_equal. f_equal. rewrite forward_forward. reflexivity.
Qed.

Lemma all_read ast f :
  (total_cost ast <= f)%nat ->
  Forall (fun x => forall g self rest,
            (cost x <= g)%nat -> quiet0 rest = true ->
            remaining self = stmt_tokens x ++ rest ->
            parse_stmt (S g) self
            = OK (x, forward (length (stmt_tokens x)) self)) ast.
Proof.
  intros _. induction ast as [|x r IH]; constructor; auto.
  intros g self rest. apply parse_stmt_reads.
Qed.

(** The loop of [parse] over the statements of a rendered program. *)
Lemma parse_loop_prefix f ast : forall m acc self rest,
  (total_cost ast <= f)%nat ->
  quiet0 rest = true ->
  remaining self = program_tokens ast ++ rest ->
  parse_loop (S f) (length ast + m) acc self
  = parse_loop (S f) m (acc ++ ast)
      (forward (length (program_tokens ast)) self).
Proof.
  induction ast as [|x r IH]; intros m acc self rest Hc Hq H.
  - simpl. rewrite app_nil_r, forward_0. reflexivity.
  - simpl in Hc, H. rewrite <- app_assoc in H.
    change (length (x :: r) + m)%nat with (S (length r + m)).
    rewrite parse_loop_S.
    destruct (stmt_head x (program_tokens r ++ rest)) as (tk & tl & E & Hs).
    assert ((pos self <? length (tokens self))%nat = true) as ->.
    { rewrite E in H. apply (remaining_nonempty _ _ _ H). }
    unfold bind.
    rewrite (parse_stmt_reads x f self (program_tokens r ++ rest) ltac:(lia)
               (program_follow r rest Hq) H).
    apply remaining_forward in H.
    rewrite (IH m (acc ++ [x]) _ rest ltac:(lia) Hq H).
    rewrite <- app_assoc, forward_forward. simpl. rewrite length_app.
    reflexivity.
Qed.

(** Parsing a rendered program followed by [rest] comes down to the loop
    of [parse] at [rest], with the program as the statements read so far. *)
Lemma parse_after_program ast rest f :
  (total_cost ast <= f)%nat ->
  (length (program_tokens ast ++ rest) <= f)%nat ->
  quiet0 rest = true ->
  parse (program_tokens ast ++ rest)
  = fst <$> parse_loop (S f) (S f - length ast) ast
              (forward (length (program_tokens ast))
                       (init (program_tokens ast ++ rest))).
Proof.
  intros Hc Hl Hq.
  rewrite <- (parse_fuel_irrelevant _ (S f)) by lia.
  unfold parse_with.
  pose proof (length_le_total_cost ast) as Hlen.
  pose proof (parse_loop_prefix f ast (S f - length ast) []
                (init (program_tokens ast ++ rest)) rest Hc Hq
                (remaining_init _)) as E.
  replace (length ast + (S f - length ast))%nat with (S f) in E by lia.
  rewrite E. reflexivity.
Qed.

Lemma parse_stmt_stray f self tk rest :
  remaining self = tk :: rest -> starts_statement (tk :: rest) = false ->
  parse_stmt (S f) self
  = Raise (Exn SyntaxError ("Invalid statement at token " +:+ repr_token tk)).
Proof.
  intros H Hs.
  change (parse_stmt (S f)) with (parse_stmt_body f (parse_stmt f)).
  unfold parse_stmt_body.
  rewrite (peek_next_token _ _ _ K_PRINT H).
  rewrite (peek_next_token _ _ _ K_IF H).
  rewrite (peek_next_token _ _ _ K_IDENTIFIER H).
  assert (kind_eqb (tok_kind tk) K_IDENTIFIER && peek_next K_ASSIGN self
          = false) as E.
  { destruct tk; try reflexivity.
    destruct rest as [|b rest'].
    - rewrite (peek_next_none _ _ _ H). reflexivity.
    - rewrite (peek_next_second _ _ _ _ K_ASSIGN H).
      destruct b; try reflexivity; discriminate. }
  rewrite E.
  destruct tk; try discriminate; simpl;
    unfold syntax_error_at, bind, raise;
    rewrite current_spec, (remaining_head _ _ _ H); reflexivity.
Qed.

Lemma parse_stmt_at_end f self :
  remaining self = [] -> parse_stmt (S f) self = Raise IndexError_list.
Proof.
  intros H.
  change (parse_stmt (S f)) with (parse_stmt_body f (parse_stmt f)).
  unfold parse_stmt_body. rewrite !(peek_at_end _ _ H). simpl.
  unfold syntax_error_at, bind. rewrite current_spec, (remaining_nil _ H).
  reflexivity.
Qed.

(** X17.  Round trip of the parser: whatever the abstract syntax tree,
    writing it out as tokens (parentheses only where the grammar needs
    them) and parsing the tokens gives the tree back.  Multiplication binds
    tighter than addition, addition tighter than comparison, and the
    arithmetic operators group to the left. *)
Theorem parse_of_rendered_program ast :
  parse (program_tokens ast) = OK ast.
Proof.
  rewrite <- (app_nil_r (program_tokens ast)).
  rewrite (parse_after_program ast []
             (total_cost ast + length (program_tokens ast ++ [])))
    by (lia || reflexivity).
  rewrite parse_loop_end; [reflexivity|].
  apply remaining_forward. reflexivity.
Qed.

(** X18.  After any program, a token that neither continues the last
    expression nor begins a statement is reported as an invalid statement,
    with the token in the message. *)
Theorem parse_rejects_stray_token ast tk rest :
  quiet0 (tk :: rest) = true ->
  starts_statement (tk :: rest) = false ->
  parse (program_tokens ast ++ tk :: rest)
  = Raise (Exn SyntaxError ("Invalid statement at token " +:+ repr_token tk)).
Proof.
  intros Hq Hs.
  set (f := (total_cost ast + length (program_tokens ast ++ tk :: rest))%nat).
  rewrite (parse_after_program ast (tk :: rest) f) by (unfold f; lia || exact Hq).
  pose proof (length_le_total_cost ast) as Hlen.
  replace (S f - length ast)%nat with (S (f - length ast)) by (unfold f; lia).
  assert (remaining (forward (length (program_tokens ast))
                             (init (program_tokens ast ++ tk :: rest)))
          = tk :: rest) as H by (apply remaining_forward; reflexivity).
  rewrite parse_loop_S, (remaining_nonempty _ _ _ H).
  unfold bind. rewrite (parse_stmt_stray _ _ _ _ H Hs). reflexivity.
Qed.

Lemma parse_rejects_stray_token_witness :
  parse [PRINT; NUMBER 1; NUMBER 2]
  = Raise (Exn SyntaxError "Invalid statement at token ('NUMBER', 2)").
Proof.
  exact (parse_rejects_stray_token [Print (IntLiteral 1)] (NUMBER 2) []
           eq_refl eq_refl).
Defined.

Lemma consume_other self k tk rest :
  remaining self = tk :: rest -> kind_eqb (tok_kind tk) k = false ->
  consume k self
  = Raise (Exn SyntaxError ("Expected " +:+ kind_name k +:+ ", got "
                            +:+ kind_name (tok_kind tk))).
Proof.
  intros H Hk. apply remaining_head in H.
  unfold consume, peek, bind, raise. rewrite current_spec, H, Hk.
  reflexivity.
Qed.

Lemma consume_at_end self k :
  remaining self = [] -> consume k self = Raise IndexError_list.
Proof.
  intros H. apply remaining_nil in H.
  unfold consume, peek, bind. rewrite current_spec, H. reflexivity.
Qed.

Lemma parse_expr_at_end f self :
  remaining self = [] -> parse_expr (S f) self = Raise IndexError_list.
Proof.
  intros H. apply remaining_nil in H.
  change (parse_expr (S f)) with (parse_compare (parse_expr f) f).
  unfold parse_compare, parse_add_sub, parse_mul_div, bind, parse_primary.
  rewrite H. unfold syntax_error_at, bind. rewrite current_spec, H.
  reflexivity.
Qed.

Lemma parse_expr_unexpected f self tk rest :
  remaining self = tk :: rest -> starts_operand tk = false ->
  parse_expr (S f) self
  = Raise (Exn SyntaxError ("Unexpected token: " +:+ repr_token tk)).
Proof.
  intros H Hs. apply remaining_head in H.
  change (parse_expr (S f)) with (parse_compare (parse_expr f) f).
  unfold parse_compare, parse_add_sub, parse_mul_div, bind, parse_primary.
  rewrite H.
  destruct tk; try discriminate;
    unfold syntax_error_at, bind, raise; rewrite current_spec, H;
    reflexivity.
Qed.

(** A statement fails as its first expression does. *)
Lemma parse_stmt_opener f opener self tail e :
  expects_expression opener = true ->
  remaining self = opener ++ tail ->
  parse_expr (S f) (forward (length opener) self) = Raise e ->
  parse_stmt (S (S f)) self = Raise e.
Proof.
  intros Ho H He.
  change (parse_stmt (S (S f)))
    with (parse_stmt_body (S f) (parse_stmt (S f))).
  unfold parse_stmt_body.
  destruct opener as [|a [|b [|c l]]]; try discriminate;
    destruct a; try discriminate; try (destruct b; try discriminate);
    cbn [app length] in H, He.
  - rewrite (peek_next_token _ _ _ K_PRINT H). cbn [kind_eqb tok_kind].
    unfold parse_print, bind.
    rewrite (consume_next _ K_PRINT _ _ H eq_refl), He. reflexivity.
  - rewrite (peek_next_token _ _ _ K_PRINT H).
    rewrite (peek_next_token _ _ _ K_IF H). cbn [kind_eqb tok_kind].
    unfold parse_if, bind.
    rewrite (consume_next _ K_IF _ _ H eq_refl), He. reflexivity.
  - rewrite (peek_next_token _ _ _ K_PRINT H).
    rewrite (peek_next_token _ _ _ K_IF H).
    rewrite (peek_next_token _ _ _ K_IDENTIFIER H).
    rewrite (peek_next_second _ _ _ _ K_ASSIGN H).
    cbn [kind_eqb tok_kind andb].
    unfold parse_assignment, bind, consume_identifier.
    rewrite (remaining_head _ _ _ H).
    apply remaining_advance in H.
    rewrite (consume_next _ K_ASSIGN _ _ H eq_refl).
    rewrite !advance_forward, forward_forward.
    change (1 + 1)%nat with 2%nat. rewrite He. reflexivity.
Qed.

Lemma opener_head opener tail :
  expects_expression opener = true ->
  exists tk tl, opener ++ tail = tk :: tl /\ quiet0 (tk :: tl) = true.
Proof.
  intros Ho.
  destruct opener as [|a l]; try discriminate.
  exists a, (l ++ tail). split; [reflexivity|].
  destruct a; try discriminate; reflexivity.
Qed.

(** After a rendered program, [parse] fails as [parse_stmt] does on what
    follows. *)
Lemma parse_fails_after_program ast tk rest e b :
  quiet0 (tk :: rest) = true ->
  (forall f self, (b <= f)%nat -> remaining self = tk :: rest ->
                  parse_stmt (S f) self = Raise e) ->
  parse (program_tokens ast ++ tk :: rest) = Raise e.
Proof.
  intros Hq Hs.
  set (f := (b + total_cost ast
             + length (program_tokens ast ++ tk :: rest))%nat).
  rewrite (parse_after_program ast (tk :: rest) f)
    by (unfold f; lia || exact Hq).
  pose proof (length_le_total_cost ast) as Hlen.
  replace (S f - length ast)%nat with (S (f - length ast)) by (unfold f; lia).
  assert (remaining (forward (length (program_tokens ast))
                             (init (program_tokens ast ++ tk :: rest)))
          = tk :: rest) as H by (apply remaining_forward; reflexivity).
  rewrite parse_loop_S, (remaining_nonempty _ _ _ H).
  unfold bind. rewrite (Hs f _ ltac:(unfold f; lia) H). reflexivity.
Qed.

(** An [if] whose body is not closed: the loop of the body runs into the
    end of the tokens. *)
Lemma parse_stmt_unclosed f c body self :
  (cost (If c body) <= f)%nat ->
  remaining self = IF :: render 0 c ++ LBRACE :: program_tokens body ->
  parse_stmt (S f) self = Raise IndexError_list.
Proof.
  intros Hc H. rewrite cost_if in Hc. destruct f as [|f]; [lia|].
  change (parse_stmt (S (S f)))
    with (parse_stmt_body (S f) (parse_stmt (S f))).
  unfold parse_stmt_body.
  rewrite (peek_next_token _ _ _ K_PRINT H).
  rewrite (peek_next_token _ _ _ K_IF H). cbn [kind_eqb tok_kind].
  unfold parse_if, bind.
  rewrite (consume_next _ K_IF _ _ H eq_refl).
  apply remaining_advance in H. rewrite advance_forward in H.
  rewrite (parse_expr_reads f c _ (LBRACE :: program_tokens body)
             ltac:(lia) eq_refl H).
  apply remaining_forward in H.
  rewrite (consume_next _ K_LBRACE _ _ H eq_refl).
  apply remaining_advance in H. rewrite advance_forward in H.
  rewrite <- (app_nil_r (program_tokens body)) in H.
  pose proof (length_le_total_cost body) as Hlen.
  pose proof (if_body_prefix f body (S (f - length body)) [] _ []
                (all_read body f ltac:(lia)) ltac:(lia) eq_refl H) as E.
  replace (length body + S (f - length body))%nat with (S f) in E by lia.
  rewrite E. clear E.
  apply remaining_forward in H.
  rewrite if_body_S, (peek_at_end _ _ H). unfold bind.
  rewrite (parse_stmt_at_end _ _ H). reflexivity.
Qed.

(** An [if] whose condition is not followed by a brace. *)
Lemma parse_stmt_no_brace f c tk rest self :
  (nodes c < f)%nat ->
  quiet0 (tk :: rest) = true ->
  kind_eqb (tok_kind tk) K_LBRACE = false ->
  remaining self = IF :: render 0 c ++ tk :: rest ->
  parse_stmt (S f) self
  = Raise (Exn SyntaxError
             ("Expected LBRACE, got " +:+ kind_name (tok_kind tk))).
Proof.
  intros Hc Hq Hk H. destruct f as [|f]; [lia|].
  change (parse_stmt (S (S f)))
    with (parse_stmt_body (S f) (parse_stmt (S f))).
  unfold parse_stmt_body.
  rewrite (peek_next_token _ _ _ K_PRINT H).
  rewrite (peek_next_token _ _ _ K_IF H). cbn [kind_eqb tok_kind].
  unfold parse_if, bind.
  rewrite (consume_next _ K_IF _ _ H eq_refl).
  apply remaining_advance in H. rewrite advance_forward in H.
  rewrite (parse_expr_reads f c _ (tk :: rest) ltac:(lia) Hq H).
  apply remaining_forward in H.
  rewrite (consume_other _ K_LBRACE _ _ H Hk). reflexivity.
Qed.

(** X19.  An [if] left open at the end of the tokens is reported as an
    IndexError, list index out of range: the loop of the body looks for the
    next statement behind the last token. *)
Theorem parse_of_unclosed_if ast c body :
  parse (program_tokens ast ++ IF :: render 0 c ++ LBRACE :: program_tokens body)
  = Raise IndexError_list.
Proof.
  apply (parse_fails_after_program ast IF _ _ (cost (If c body))).
  - reflexivity.
  - intros f self Hf H. apply (parse_stmt_unclosed f c body self Hf H).
Qed.

(** X20.  A program that ends where a statement expects its expression,
    after print, after if or after the sign of an assignment, is reported
    as an IndexError, list index out of range. *)
Theorem parse_of_missing_expression ast opener :
  expects_expression opener = true ->
  parse (program_tokens ast ++ opener) = Raise IndexError_list.
Proof.
  intros Ho.
  destruct (opener_head opener [] Ho) as (tk & tl & E & Hq).
  rewrite app_nil_r in E. rewrite E.
  apply (parse_fails_after_program ast tk tl _ 1 Hq).
  intros f self Hf H. destruct f as [|f]; [lia|].
  rewrite <- E, <- (app_nil_r opener) in H.
  apply (parse_stmt_opener f opener self [] _ Ho H).
  apply parse_expr_at_end. apply remaining_forward. exact H.
Qed.

Lemma parse_of_missing_expression_witness :
  parse [PRINT; NUMBER 1; IDENTIFIER "x"; ASSIGN] = Raise IndexError_list.
Proof.
  exact (parse_of_missing_expression [Print (IntLiteral 1)]
           [IDENTIFIER "x"; ASSIGN] eq_refl).
Defined.

(** X21.  Where a statement expects its expression and the next token can
    begin no operand, the token is reported as unexpected, whatever comes
    before the statement and after the token. *)
Theorem parse_rejects_unexpected_token ast opener tk rest :
  expects_expression opener = true ->
  starts_operand tk = false ->
  parse (program_tokens ast ++ opener ++ tk :: rest)
  = Raise (Exn SyntaxError ("Unexpected token: " +:+ repr_token tk)).
Proof.
  intros Ho Hs.
  destruct (opener_head opener (tk :: rest) Ho) as (hd & tl & E & Hq).
  rewrite E.
  apply (parse_fails_after_program ast hd tl _ 1 Hq).
  intros f self Hf H. destruct f as [|f]; [lia|].
  rewrite <- E in H.
  apply (parse_stmt_opener f opener self (tk :: rest) _ Ho H).
  apply (parse_expr_unexpected f _ tk rest); [|exact Hs].
  apply remaining_forward. exact H.
Qed.

Lemma parse_rejects_unexpected_token_witness :
  parse [PRINT; OP Add; NUMBER 1]
  = Raise (Exn SyntaxError "Unexpected token: ('OP', '+')").
Proof.
  exact (parse_rejects_unexpected_token [] [PRINT] (OP Add) [NUMBER 1]
           eq_refl eq_refl).
Defined.

(** X22.  An [if] whose condition is followed by a token that neither
    continues the condition nor opens the body is reported with the kind
    that was expected and the kind that was found. *)
Theorem parse_rejects_missing_brace ast c tk rest :
  quiet0 (tk :: rest) = true ->
  kind_eqb (tok_kind tk) K_LBRACE = false ->
  parse (program_tokens ast ++ IF :: render 0 c ++ tk :: rest)
  = Raise (Exn SyntaxError
             ("Expected LBRACE, got " +:+ kind_name (tok_kind tk))).
Proof.
  intros Hq Hk.
  apply (parse_fails_after_program ast IF _ _ (S (nodes c))).
  - reflexivity.
  - intros f self Hf H.
    apply (parse_stmt_no_brace f c tk rest self ltac:(lia) Hq Hk H).
Qed.

Lemma parse_rejects_missing_brace_witness :
  parse [IF; IDENTIFIER "x"; PRINT; NUMBER 1]
  = Raise (Exn SyntaxError "Expected LBRACE, got PRINT").
Proof.
  exact (parse_rejects_missing_brace [] (VarRef "x") PRINT [NUMBER 1]
           eq_refl eq_refl).
Defined.

End RenderProgram.
